(** * Talos Principle hex decoder: decoder.py, history.py and models.py

    A shallow embedding of the detection / decoding / substitution engine
    and of the history store, with the properties of the specification
    stated and settled against it. *)

From Stdlib Require Import String Ascii.
From Stdlib Require Import Bool Arith NArith ZArith List Lia.
Import ListNotations.

Set Warnings "-register-all".

(** ** Python strings

    A Python [str] is a sequence of Unicode code points. *)

Definition char := N.
Definition pystr := list char.

Definition pystr_of (s : string) : pystr :=
  map N_of_ascii (list_ascii_of_string s).

Definition in_range (lo hi c : N) : bool := ((lo <=? c) && (c <=? hi))%N.

(** [[0-9A-Fa-f]] *)
Definition is_hex (c : char) : bool :=
  in_range 48 57 c || in_range 65 70 c || in_range 97 102 c.

(** The ASCII part of [str.isspace] / [\s]: TAB LF VT FF CR, FS GS RS US
    and SPACE. *)
Definition ascii_isspace (c : char) : bool :=
  in_range 9 13 c || in_range 28 31 c || (c =? 32)%N.

(** The ASCII part of [\w]: [[a-zA-Z0-9_]]. *)
Definition ascii_isword (c : char) : bool :=
  in_range 48 57 c || in_range 65 90 c || in_range 97 122 c || (c =? 95)%N.

(** The classification of the code points above U+007F comes from the
    interpreter's Unicode database, which is not part of the program: it
    is an interface the development is parametric in. *)
Class UnicodeDB := {
  uni_isspace : char -> bool;
  uni_isalnum : char -> bool
}.

(** A database that knows no whitespace and no letters outside ASCII. It
    classifies every ASCII text the way the interpreter does. *)
Definition ascii_db : UnicodeDB :=
  {| uni_isspace := fun _ => false; uni_isalnum := fun _ => false |}.

Section Classes.
Context {U : UnicodeDB}.

(** [\s] on a [str] pattern, and the characters [str.rstrip()] removes. *)
Definition is_space (c : char) : bool :=
  if (c <? 128)%N then ascii_isspace c else uni_isspace c.

(** [\w] on a [str] pattern. *)
Definition is_word (c : char) : bool :=
  if (c <? 128)%N then ascii_isword c else uni_isalnum c.
End Classes.

(** ** The regular expression engine

    The fragment of [re] that the two patterns of the program use, with
    the backtracking matcher written in continuation-passing style: [k]
    is what remains to be matched, and a failure of [k] makes the
    construct try its next alternative. *)

Inductive regex :=
| Boundary                      (* \b *)
| Class (p : char -> bool)      (* a character class *)
| EndLine                       (* $ under re.MULTILINE *)
| Seq (r1 r2 : regex)
| Alt (r1 r2 : regex)           (* r1|r2, r1 tried first *)
| AtLeast (n : nat) (r : regex) (* greedy r{n,} *).

Section Engine.
Context {U : UnicodeDB}.

Definition word_at (s : pystr) (i : nat) : bool :=
  match nth_error s i with Some c => is_word c | None => false end.

(** [\b]: exactly one of the characters before and after the position
    is a word character (a missing character counts as a non-word). *)
Definition at_boundary (s : pystr) (i : nat) : bool :=
  let before := match i with 0 => false | S j => word_at s j end in
  xorb before (word_at s i).

(** [$] with [re.MULTILINE]: at the end of the string or before a
    newline. *)
Definition at_line_end (s : pystr) (i : nat) : bool :=
  match nth_error s i with
  | Some c => (c =? 10)%N
  | None => i =? length s
  end.

(** The loop of a greedy [r{n,}], [body] being the matcher of [r]: one
    more iteration is preferred to stopping, and an iteration that
    consumed nothing is refused. [count] iterations are done. An
    iteration that is not refused moves forward in the string, so that a
    [fuel] of one more than the characters left never runs out. *)
Fixpoint repeat_greedy (body : (nat -> option nat) -> nat -> option nat)
  (n : nat) (k : nat -> option nat) (fuel count i : nat) {struct fuel}
  : option nat :=
  let stop := if n <=? count then k i else None in
  match fuel with
  | 0 => stop
  | S fuel' =>
      match body (fun j => if i <? j
                           then repeat_greedy body n k fuel' (S count) j
                           else None) i with
      | Some e => Some e
      | None => stop
      end
  end.

(** [exec r s k i] matches [r] at position [i] of [s] and hands the end
    position to [k]. *)
Fixpoint exec (r : regex) (s : pystr) (k : nat -> option nat) (i : nat)
  {struct r} : option nat :=
  match r with
  | Boundary => if at_boundary s i then k i else None
  | Class p =>
      match nth_error s i with
      | Some c => if p c then k (S i) else None
      | None => None
      end
  | EndLine => if at_line_end s i then k i else None
  | Seq r1 r2 => exec r1 s (exec r2 s k) i
  | Alt r1 r2 =>
      match exec r1 s k i with
      | Some e => Some e
      | None => exec r2 s k i
      end
  | AtLeast n r1 =>
      repeat_greedy (exec r1 s) n k (S (length s - i)) 0 i
  end.

(** [pattern.match(s, i)]: the end of the match that starts at [i]. *)
Definition match_at (r : regex) (s : pystr) (i : nat) : option nat :=
  exec r s Some i.

(** [pattern.search(s, pos)]: the first position from [pos] on at which
    the pattern matches; [n] counts the positions still to try after
    [i]. *)
Fixpoint search_from (r : regex) (s : pystr) (i n : nat)
  : option (nat * nat) :=
  match match_at r s i with
  | Some e => Some (i, e)
  | None =>
      match n with
      | 0 => None
      | S n' => search_from r s (S i) n'
      end
  end.

Definition search (r : regex) (s : pystr) (pos : nat)
  : option (nat * nat) :=
  if pos <=? length s then search_from r s pos (length s - pos) else None.

(** [pattern.finditer(s)]: the spans of the successive matches; the scan
    resumes where the previous match ended (one character further after
    an empty match, which the patterns of the program never have). Each
    span moves the scan forward: a [fuel] of one more than the length of
    the string never runs out. *)
Fixpoint finditer_from (r : regex) (s : pystr) (fuel pos : nat)
  : list (nat * nat) :=
  match fuel with
  | 0 => []
  | S fuel' =>
      match search r s pos with
      | None => []
      | Some (st, en) =>
          (st, en) :: finditer_from r s fuel' (if st <? en then en else S en)
      end
  end.

Definition finditer (r : regex) (s : pystr) : list (nat * nat) :=
  finditer_from r s (S (length s)) 0.

(** [s[st:en]] for offsets the engine produced. *)
Definition substr {A} (s : list A) (st en : nat) : list A :=
  firstn (en - st) (skipn st s).

(** [pattern.findall(s)] for a pattern without groups. *)
Definition findall (r : regex) (s : pystr) : list pystr :=
  map (fun m => substr s (fst m) (snd m)) (finditer r s).

(** [r'\b[0-9A-Fa-f]{2}\b'] *)
Definition HEX_TOKEN : regex :=
  Seq Boundary (Seq (Class is_hex) (Seq (Class is_hex) Boundary)).

(** [r'(?:\b[0-9A-Fa-f]{2}\b(?:\s+|$)){3,}'] with [re.MULTILINE] *)
Definition HEX_RUN : regex :=
  AtLeast 3
    (Seq HEX_TOKEN (Alt (AtLeast 1 (Class is_space)) EndLine)).
End Engine.

(** ** Python slices

    Offsets are Python integers: a negative one counts from the end, and
    both ends are clipped to the string. *)

Definition adjust_index (len i : Z) : Z :=
  if (i <? 0)%Z then Z.max 0 (i + len) else Z.min i len.

Definition clip {A} (s : list A) (i : Z) : nat :=
  Z.to_nat (adjust_index (Z.of_nat (length s)) i).

(** [s[:hi]] *)
Definition slice_to {A} (s : list A) (hi : Z) : list A :=
  firstn (clip s hi) s.

(** [s[lo:]] *)
Definition slice_from {A} (s : list A) (lo : Z) : list A :=
  skipn (clip s lo) s.

(** [s[lo:hi]] *)
Definition slice {A} (s : list A) (lo hi : Z) : list A :=
  substr s (clip s lo) (clip s hi).

(** ** Bytes *)

Definition byte := N.

Definition hex_value (c : char) : option N :=
  if in_range 48 57 c then Some (c - 48)%N
  else if in_range 65 70 c then Some (c - 55)%N
  else if in_range 97 102 c then Some (c - 87)%N
  else None.

(** The whitespace [bytes.fromhex] skips between two bytes. *)
Definition fromhex_space (c : char) : bool := in_range 9 13 c || (c =? 32)%N.

(** [bytes.fromhex]: two hexadecimal digits per byte; [None] stands for
    the [ValueError] of any other input. *)
Fixpoint fromhex (hx : pystr) : option (list byte) :=
  match hx with
  | [] => Some []
  | c :: rest =>
      if fromhex_space c then fromhex rest
      else
        match hex_value c, rest with
        | Some top, d :: rest' =>
            match hex_value d with
            | Some bot => option_map (cons (top * 16 + bot)%N) (fromhex rest')
            | None => None
            end
        | _, _ => None
        end
  end.

(** U+FFFD, what [errors="replace"] puts in place of a malformed
    sequence. *)
Definition REPLACEMENT_CHARACTER : char := 65533%N.

Definition is_continuation (b : byte) : bool := in_range 128 191 b.

(** The second byte of a three-byte sequence: no overlong form after E0,
    no surrogate after ED. *)
Definition second_of_three (b0 b1 : byte) : bool :=
  is_continuation b1 &&
  (if (b0 =? 224)%N then (160 <=? b1)%N
   else if (b0 =? 237)%N then (b1 <? 160)%N else true).

(** The second byte of a four-byte sequence: no overlong form after F0,
    nothing above U+10FFFF after F4. *)
Definition second_of_four (b0 b1 : byte) : bool :=
  is_continuation b1 &&
  (if (b0 =? 240)%N then (144 <=? b1)%N
   else if (b0 =? 244)%N then (b1 <? 144)%N else true).

(** [bytes.decode("utf-8", errors="replace")]: a malformed sequence is
    replaced, as far as it was well formed, by one U+FFFD and decoding
    resumes at the offending byte; a sequence cut short by the end of the
    input is replaced by one U+FFFD. *)
Fixpoint utf8_decode_replace (bs : list byte) : pystr :=
  match bs with
  | [] => []
  | b0 :: r0 =>
      if (b0 <? 128)%N then b0 :: utf8_decode_replace r0
      else if in_range 194 223 b0 then
        match r0 with
        | [] => [REPLACEMENT_CHARACTER]
        | b1 :: r1 =>
            if is_continuation b1
            then ((b0 - 192) * 64 + (b1 - 128))%N :: utf8_decode_replace r1
            else REPLACEMENT_CHARACTER :: utf8_decode_replace r0
        end
      else if in_range 224 239 b0 then
        match r0 with
        | [] => [REPLACEMENT_CHARACTER]
        | b1 :: r1 =>
            if second_of_three b0 b1 then
              match r1 with
              | [] => [REPLACEMENT_CHARACTER]
              | b2 :: r2 =>
                  if is_continuation b2
                  then ((b0 - 224) * 4096 + (b1 - 128) * 64
                        + (b2 - 128))%N :: utf8_decode_replace r2
                  else REPLACEMENT_CHARACTER :: utf8_decode_replace r1
              end
            else REPLACEMENT_CHARACTER :: utf8_decode_replace r0
        end
      else if in_range 240 244 b0 then
        match r0 with
        | [] => [REPLACEMENT_CHARACTER]
        | b1 :: r1 =>
            if second_of_four b0 b1 then
              match r1 with
              | [] => [REPLACEMENT_CHARACTER]
              | b2 :: r2 =>
                  if is_continuation b2 then
                    match r2 with
                    | [] => [REPLACEMENT_CHARACTER]
                    | b3 :: r3 =>
                        if is_continuation b3
                        then ((b0 - 240) * 262144 + (b1 - 128) * 4096
                              + (b2 - 128) * 64 + (b3 - 128))%N
                             :: utf8_decode_replace r3
                        else REPLACEMENT_CHARACTER :: utf8_decode_replace r2
                    end
                  else REPLACEMENT_CHARACTER :: utf8_decode_replace r1
              end
            else REPLACEMENT_CHARACTER :: utf8_decode_replace r0
        end
      else REPLACEMENT_CHARACTER :: utf8_decode_replace r0
  end.

(** ** models.py *)

Module Replacement.
Record t := mk {
  start : Z;
  end_ : Z;
  hex_run : pystr;
  decoded : pystr
}.
End Replacement.

Module DecodeResult.
Record t := mk {
  original : pystr;
  decoded : pystr;
  replacements : list Replacement.t;
  num_replacements : Z
}.
End DecodeResult.

(** ** decoder.py *)

(** [_decode_hex_bytes]: the [except Exception] branch is the [None] of
    [fromhex]. *)
Definition _decode_hex_bytes (byte_tokens : list pystr) : pystr :=
  let hx := concat byte_tokens in
  match fromhex hx with
  | Some bs => utf8_decode_replace bs
  | None => []
  end.

Section Decoder.
Context {U : UnicodeDB}.

Definition drop_spaces : pystr -> pystr :=
  fix go (s : pystr) : pystr :=
    match s with
    | c :: s' => if is_space c then go s' else s
    | [] => []
    end.

(** [str.rstrip()]: the whitespace at the end is removed. *)
Definition rstrip (s : pystr) : pystr := rev (drop_spaces (rev s)).

(** The body of the loop of [find_replacements] for the match [m]. *)
Definition on_match (text : pystr) (reps : list Replacement.t)
  (m : nat * nat) : list Replacement.t :=
  let run := substr text (fst m) (snd m) in
  let run_stripped := rstrip run in
  let trailing_ws :=
    if length run_stripped <? length run
    then skipn (length run_stripped) run else [] in
  let tokens := findall HEX_TOKEN run_stripped in
  let decoded := _decode_hex_bytes tokens in
  match decoded with
  | [] => reps
  | _ :: _ =>
      let decoded_with_spaces := decoded ++ trailing_ws in
      reps ++ [Replacement.mk (Z.of_nat (fst m)) (Z.of_nat (snd m)) run
                 decoded_with_spaces]
  end.

Definition find_replacements (text : pystr) : list Replacement.t :=
  fold_left (on_match text) (finditer HEX_RUN text) [].

Definition substitute (out : pystr) (r : Replacement.t) : pystr :=
  slice_to out (Replacement.start r) ++ Replacement.decoded r
  ++ slice_from out (Replacement.end_ r).

Definition apply_replacements (text : pystr) (reps : list Replacement.t)
  : pystr :=
  match reps with
  | [] => text
  | _ :: _ => fold_left substitute (rev reps) text
  end.

Definition decode_text (text : pystr) : DecodeResult.t :=
  let reps := find_replacements text in
  let decoded_str := apply_replacements text reps in
  DecodeResult.mk text decoded_str reps (Z.of_nat (length reps)).
End Decoder.

(** ** Python values

    What [json.load] returns and [json.dump] writes: [None], booleans,
    integers, strings, lists and dictionaries with string keys (JSON reals
    are left out). A dictionary is the list of its items in insertion
    order, with one item per key. *)

Inductive pyval :=
| PNone
| PBool (b : bool)
| PInt (z : Z)
| PStr (s : pystr)
| PList (l : list pyval)
| PDict (d : list (pystr * pyval)).

Definition pystr_eqb : pystr -> pystr -> bool :=
  fix go (a b : pystr) : bool :=
    match a, b with
    | [], [] => true
    | x :: a', y :: b' => (x =? y)%N && go a' b'
    | _, _ => false
    end.

(** [d.get(k)] *)
Definition dict_get (d : list (pystr * pyval)) (k : pystr) : option pyval :=
  option_map snd (find (fun kv => pystr_eqb (fst kv) k) d).

(** [d.get(k, default)] *)
Definition dict_get_default (d : list (pystr * pyval)) (k : pystr)
  (default : pyval) : pyval :=
  match dict_get d k with Some v => v | None => default end.

(** Python's [==] on these values: [True == 1] and [False == 0], lists are
    compared element by element, dictionaries item by item whatever the
    order. *)
Fixpoint py_eq (a b : pyval) {struct a} : bool :=
  match a with
  | PNone => match b with PNone => true | _ => false end
  | PBool x =>
      match b with
      | PBool y => Bool.eqb x y
      | PInt y => (y =? (if x then 1 else 0))%Z
      | _ => false
      end
  | PInt x =>
      match b with
      | PInt y => (x =? y)%Z
      | PBool y => (x =? (if y then 1 else 0))%Z
      | _ => false
      end
  | PStr x => match b with PStr y => pystr_eqb x y | _ => false end
  | PList x =>
      match b with
      | PList y =>
          (fix go (x y : list pyval) {struct x} : bool :=
             match x, y with
             | [], [] => true
             | u :: x', v :: y' => py_eq u v && go x' y'
             | _, _ => false
             end) x y
      | _ => false
      end
  | PDict x =>
      match b with
      | PDict y =>
          (length x =? length y) &&
          (fix go (x : list (pystr * pyval)) {struct x} : bool :=
             match x with
             | [] => true
             | (k, u) :: x' =>
                 match dict_get y k with
                 | Some v => py_eq u v
                 | None => false
                 end && go x'
             end) x
      | _ => false
      end
  end.

(** ** Exceptions *)

Inductive exn :=
| IOError
| JSONDecodeError
| UnicodeDecodeError
| TypeError
| AttributeError
| UnicodeEncodeError.

Inductive result (A : Type) :=
| Ok (a : A)
| Raise (e : exn).
Arguments Ok {A} a.
Arguments Raise {A} e.

Definition bind {A B} (m : result A) (f : A -> result B) : result B :=
  match m with
  | Ok a => f a
  | Raise e => Raise e
  end.

Notation "x <- m ;; f" := (bind m (fun x => f))
  (at level 61, m at next level, right associativity).

(** [try: body except handled: fallback] *)
Definition try_except {A} (body : result A) (handled : exn -> bool)
  (fallback : result A) : result A :=
  match body with
  | Ok a => Ok a
  | Raise e => if handled e then fallback else Raise e
  end.

(** [[f(x) for x in l]] *)
Fixpoint comprehension {A B} (f : A -> result B) (l : list A)
  : result (list B) :=
  match l with
  | [] => Ok []
  | x :: l' => y <- f x ;; ys <- comprehension f l' ;; Ok (y :: ys)
  end.

(** [iter(v)]: what a [for] loop over [v] goes through. *)
Definition py_iter (v : pyval) : result (list pyval) :=
  match v with
  | PList l => Ok l
  | PDict d => Ok (map (fun kv => PStr (fst kv)) d)
  | PStr s => Ok (map (fun c => PStr [c]) s)
  | PNone | PBool _ | PInt _ => Raise TypeError
  end.

(** ** models.py, continued

    A dataclass does not check the declared types of its fields
    ([str], [str], [str], [int], [List[Dict[str, Any]]]): [from_dict]
    stores whatever the dictionary holds. *)

Module HistoryEntry.
Record t := mk {
  timestamp : pyval;
  original : pyval;
  decoded : pyval;
  num_replacements : pyval;
  replacements : pyval
}.

(** [data.get] exists on a dictionary only. *)
Definition from_dict (data : pyval) : result t :=
  match data with
  | PDict d =>
      Ok (mk (dict_get_default d (pystr_of "timestamp") (PStr []))
             (dict_get_default d (pystr_of "original") (PStr []))
             (dict_get_default d (pystr_of "decoded") (PStr []))
             (dict_get_default d (pystr_of "num_replacements") (PInt 0))
             (dict_get_default d (pystr_of "replacements") (PList [])))
  | _ => Raise AttributeError
  end.

Definition to_dict (self : t) : pyval :=
  PDict [ (pystr_of "timestamp", timestamp self);
          (pystr_of "original", original self);
          (pystr_of "decoded", decoded self);
          (pystr_of "num_replacements", num_replacements self);
          (pystr_of "replacements", replacements self) ].
End HistoryEntry.

(** ** history.py *)

(** What reading [HISTORY_FILE], ["talos_history.json"] in the working
    directory, finds. *)
Inductive file_state :=
| Missing                 (* os.path.exists is False *)
| Unreadable              (* open or read raises IOError *)
| NotText                 (* the bytes are not UTF-8: UnicodeDecodeError *)
| NotJSON                 (* the text is not JSON: JSONDecodeError *)
| Document (data : pyval) (* json.load returns data *).

(** The file and whether it can be written. *)
Record disk := {
  file : file_state;
  writable : bool
}.

Definition MAX_HISTORY_ENTRIES : Z := 1000.

(** [json.load(open(HISTORY_FILE))] *)
Definition json_load (f : file_state) : result pyval :=
  match f with
  | Missing | Unreadable => Raise IOError
  | NotText => Raise UnicodeDecodeError
  | NotJSON => Raise JSONDecodeError
  | Document data => Ok data
  end.

Definition load_history (f : file_state) : result (list HistoryEntry.t) :=
  match f with
  | Missing => Ok []
  | _ =>
      try_except
        (data <- json_load f ;;
         entries <- py_iter data ;;
         comprehension HistoryEntry.from_dict entries)
        (fun e => match e with
                  | JSONDecodeError | IOError => true
                  | _ => false
                  end)
        (Ok [])
  end.

(** A surrogate code point, U+D800 to U+DFFF. A Python string can hold one
    on its own ([json.load] returns one for the escape [\ud800]); the
    UTF-8 codec refuses to encode it. *)
Definition is_surrogate (c : char) : bool := in_range 55296 57343 c.

(** [s.encode('utf-8')] does not raise. *)
Definition utf8_encodable (s : pystr) : bool :=
  forallb (fun c => negb (is_surrogate c)) s.

(** No string of the value, key or item at any depth, holds a
    surrogate. *)
Fixpoint json_encodable (v : pyval) : bool :=
  match v with
  | PNone | PBool _ | PInt _ => true
  | PStr s => utf8_encodable s
  | PList l => forallb json_encodable l
  | PDict d =>
      forallb (fun kv => match kv with
                         | (k, x) => utf8_encodable k && json_encodable x
                         end) d
  end.

(** A computation on the history file returns or raises, and leaves a
    file either way: what was written before an exception stays
    written. *)
Definition bind_io {A B} (m : result A * disk)
  (f : A -> disk -> result B * disk) : result B * disk :=
  match m with
  | (Ok a, d) => f a d
  | (Raise e, d) => (Raise e, d)
  end.

(** [try: body except handled: fallback] around such a computation. *)
Definition try_except_io {A} (body : result A * disk)
  (handled : exn -> bool) (fallback : disk -> result A * disk)
  : result A * disk :=
  match body with
  | (Ok a, d) => (Ok a, d)
  | (Raise e, d) => if handled e then fallback d else (Raise e, d)
  end.

(** [open(HISTORY_FILE, 'w', encoding='utf-8')]: refused with [IOError],
    or the file is emptied, and an empty file is not a JSON text. *)
Definition open_w (d : disk) : result unit * disk :=
  if writable d
  then (Ok tt, {| file := NotJSON; writable := writable d |})
  else (Raise IOError, d).

(** [json.dump(data, f, indent=2, ensure_ascii=False)] and the close of
    [f]. With [ensure_ascii=False] the strings are written as they are,
    and the text is written piece by piece: the piece with a surrogate
    raises [UnicodeEncodeError], the pieces before it stay in the file,
    which ends before the text of [data] does and is not a JSON text.
    Without a surrogate the text is written whole, and [json.load] reads
    [data] from it. *)
Definition json_dump (data : pyval) (d : disk) : result unit * disk :=
  if json_encodable data
  then (Ok tt, {| file := Document data; writable := writable d |})
  else (Raise UnicodeEncodeError,
        {| file := NotJSON; writable := writable d |}).

(** [save_history]: only [IOError] is swallowed. *)
Definition save_history (d : disk) (history : list HistoryEntry.t)
  : result unit * disk :=
  try_except_io
    (let data := map HistoryEntry.to_dict history in
     bind_io (open_w d) (fun _ f => json_dump (PList data) f))
    (fun e => match e with
              | IOError => true
              | _ => false
              end)
    (fun d' => (Ok tt, d')).

Definition replacement_dict (r : Replacement.t) : pyval :=
  PDict [ (pystr_of "hex_run", PStr (Replacement.hex_run r));
          (pystr_of "decoded", PStr (Replacement.decoded r));
          (pystr_of "start", PInt (Replacement.start r));
          (pystr_of "end", PInt (Replacement.end_ r)) ].

(** [add_to_history]; [now] is [datetime.now().isoformat()]. *)
Definition add_to_history (d : disk) (now : pystr)
  (original decoded : pystr) (replacements : list Replacement.t)
  : result unit * disk :=
  bind_io (load_history (file d), d) (fun history d =>
    let entry :=
      HistoryEntry.mk (PStr now) (PStr original) (PStr decoded)
        (PInt (Z.of_nat (length replacements)))
        (PList (map replacement_dict replacements)) in
    let history := history ++ [entry] in
    let history :=
      if (Z.of_nat (length history) >? MAX_HISTORY_ENTRIES)%Z
      then slice_from history (- MAX_HISTORY_ENTRIES)
      else history in
    save_history d history).

(** The test of the loop of [delete_history_entry]. *)
Definition same_identity (e entry : HistoryEntry.t) : bool :=
  py_eq (HistoryEntry.timestamp e) (HistoryEntry.timestamp entry)
  && py_eq (HistoryEntry.original e) (HistoryEntry.original entry)
  && py_eq (HistoryEntry.decoded e) (HistoryEntry.decoded entry).

(** [history.pop(i)] for an index inside the list. *)
Definition pop {A} (l : list A) (i : nat) : list A :=
  firstn i l ++ skipn (S i) l.

(** The loop of [delete_history_entry] over [enumerate(history)], from
    index [i] on: the index of the first entry that passes the test. *)
Fixpoint first_match (entry : HistoryEntry.t) (rest : list HistoryEntry.t)
  (i : nat) : option nat :=
  match rest with
  | [] => None
  | e :: rest' =>
      if same_identity e entry then Some i
      else first_match entry rest' (S i)
  end.

Definition delete_history_entry (d : disk) (entry : HistoryEntry.t)
  : result bool * disk :=
  bind_io (load_history (file d), d) (fun history d =>
    match first_match entry history 0 with
    | Some i =>
        bind_io (save_history d (pop history i)) (fun _ d' => (Ok true, d'))
    | None => (Ok false, d)
    end).

Definition get_history_count (d : disk) : result Z :=
  history <- load_history (file d) ;; Ok (Z.of_nat (length history)).

(** * Specification-level notions *)

(** ** What a match is

    [matches s r i j]: the pattern [r] matches the characters of [s] from
    position [i] up to position [j], whatever the order in which the
    engine tries the possibilities. *)

Inductive iterate (P : nat -> nat -> Prop) : nat -> nat -> nat -> Prop :=
| iterate_0 i : iterate P 0 i i
| iterate_S c i j k : P i j -> iterate P c j k -> iterate P (S c) i k.

Section Semantics.
Context {U : UnicodeDB}.

Fixpoint matches (s : pystr) (r : regex) (i j : nat) {struct r} : Prop :=
  match r with
  | Boundary => at_boundary s i = true /\ j = i
  | Class p => exists c, nth_error s i = Some c /\ p c = true /\ j = S i
  | EndLine => at_line_end s i = true /\ j = i
  | Seq r1 r2 => exists m, matches s r1 i m /\ matches s r2 m j
  | Alt r1 r2 => matches s r1 i j \/ matches s r2 i j
  | AtLeast n r1 => exists c, n <= c /\ iterate (matches s r1) c i j
  end.

(** Every match of [r] is at least one character long. *)
Fixpoint consuming (r : regex) : bool :=
  match r with
  | Boundary | EndLine => false
  | Class _ => true
  | Seq r1 r2 => consuming r1 || consuming r2
  | Alt r1 r2 => consuming r1 && consuming r2
  | AtLeast n r1 => (0 <? n) && consuming r1
  end.

(** Every repeated sub-pattern is consuming: the loop of the engine never
    has to refuse an iteration. *)
Fixpoint progressing (r : regex) : bool :=
  match r with
  | Boundary | EndLine | Class _ => true
  | Seq r1 r2 | Alt r1 r2 => progressing r1 && progressing r2
  | AtLeast _ r1 => consuming r1 && progressing r1
  end.

End Semantics.

(** ** Spans *)

(** The spans of a scan that starts at [lo]: in the string, non-empty,
    each one starting where the previous one ended or later. *)
Inductive chain (len : nat) : nat -> list (nat * nat) -> Prop :=
| chain_nil lo : chain len lo []
| chain_cons lo st en rest :
    lo <= st -> st < en -> en <= len -> chain len en rest ->
    chain len lo ((st, en) :: rest).

(** The invariant of a [Replacement] of [text]. *)
Definition span_invariant (text : pystr) (r : Replacement.t) : Prop :=
  (0 <= Replacement.start r < Replacement.end_ r)%Z
  /\ (Replacement.end_ r <= Z.of_nat (length text))%Z
  /\ slice text (Replacement.start r) (Replacement.end_ r)
     = Replacement.hex_run r.

(** Replacements in left-to-right order: a later one starts where an
    earlier one ended or further. *)
Definition left_to_right (reps : list Replacement.t) : Prop :=
  forall a b ra rb,
    a < b -> nth_error reps a = Some ra -> nth_error reps b = Some rb ->
    (Replacement.end_ ra <= Replacement.start rb)%Z.

(** The position [p] of the text is inside the span of [r]. *)
Definition covers (r : Replacement.t) (p : Z) : Prop :=
  (Replacement.start r <= p < Replacement.end_ r)%Z.

(** Each position belongs to at most one replacement. *)
Definition disjoint_spans (reps : list Replacement.t) : Prop :=
  forall a b ra rb p,
    nth_error reps a = Some ra -> nth_error reps b = Some rb ->
    covers ra p -> covers rb p -> a = b.

(** Replacements ordered by ascending start that do not overlap, with
    spans inside a text of length [len], from offset [lo] on. *)
Inductive well_ordered (len : Z) : Z -> list Replacement.t -> Prop :=
| well_ordered_nil lo : well_ordered len lo []
| well_ordered_cons lo r rest :
    (lo <= Replacement.start r)%Z ->
    (Replacement.start r <= Replacement.end_ r)%Z ->
    (Replacement.end_ r <= len)%Z ->
    well_ordered len (Replacement.end_ r) rest ->
    well_ordered len lo (r :: rest).

(** The untouched segments of [text] from [pos] on, interleaved with the
    decoded strings. *)
Fixpoint interleave (text : pystr) (pos : Z) (reps : list Replacement.t)
  : pystr :=
  match reps with
  | [] => slice_from text pos
  | r :: rest =>
      slice text pos (Replacement.start r) ++ Replacement.decoded r
      ++ interleave text (Replacement.end_ r) rest
  end.

(** ** The shape of a run *)

(** A token: two hexadecimal digits. *)
Definition two_hex_digits (t : pystr) : Prop :=
  exists h1 h2, t = [h1; h2] /\ is_hex h1 = true /\ is_hex h2 = true.

Section RunShape.
Context {U : UnicodeDB}.

(** [token_run body tokens]: [body] is made of the [tokens], each of two
    hexadecimal digits, with whitespace between one and the next that
    begins and ends with a non-word character; it begins and ends with a
    token. *)
Inductive token_run : pystr -> list pystr -> Prop :=
| token_run_one h1 h2 :
    is_hex h1 = true -> is_hex h2 = true ->
    token_run [h1; h2] [[h1; h2]]
| token_run_more h1 h2 ws body tokens :
    is_hex h1 = true -> is_hex h2 = true ->
    ws <> [] ->
    Forall (fun c => is_space c = true) ws ->
    is_word (hd 0%N ws) = false ->
    is_word (last ws 0%N) = false ->
    token_run body tokens ->
    token_run (h1 :: h2 :: ws ++ body) ([h1; h2] :: tokens).

(** The repeated part of [HEX_RUN]. *)
Definition HEX_RUN_body : regex :=
  Seq HEX_TOKEN (Alt (AtLeast 1 (Class is_space)) EndLine).

(** The tokens that the loop of [find_replacements] extracts again from
    the match [m]. *)
Definition tokens_of (text : pystr) (m : nat * nat) : list pystr :=
  findall HEX_TOKEN (rstrip (substr text (fst m) (snd m))).

End RunShape.

(** ** The history store seen from outside *)

(** The entry that [add_to_history] builds. *)
Definition new_entry (now original decoded : pystr)
  (replacements : list Replacement.t) : HistoryEntry.t :=
  HistoryEntry.mk (PStr now) (PStr original) (PStr decoded)
    (PInt (Z.of_nat (length replacements)))
    (PList (map replacement_dict replacements)).

(** The entries can be written: what [save_history] dumps for them holds
    no surrogate. *)
Definition storable (history : list HistoryEntry.t) : bool :=
  json_encodable (PList (map HistoryEntry.to_dict history)).

(** The calls of the presentation layer into the core. *)
Inductive call :=
| Decode (text : pystr)
| AddToHistory (now original decoded : pystr)
    (replacements : list Replacement.t)
| DeleteHistoryEntry (entry : HistoryEntry.t)
| LoadHistory
| GetHistoryCount.

Inductive answer :=
| Decoded (r : DecodeResult.t)
| Returned
| Deleted (found : bool)
| Loaded (history : list HistoryEntry.t)
| Counted (n : Z)
| Raised (e : exn).

(** A call runs against the only state the core shares between calls,
    the history file; it gives an answer and the state it leaves, also
    when it raises. *)
Definition run {U : UnicodeDB} (c : call) (d : disk) : answer * disk :=
  match c with
  | Decode text => (Decoded (decode_text text), d)
  | AddToHistory now original decoded replacements =>
      match add_to_history d now original decoded replacements with
      | (Ok _, d') => (Returned, d')
      | (Raise e, d') => (Raised e, d')
      end
  | DeleteHistoryEntry entry =>
      match delete_history_entry d entry with
      | (Ok found, d') => (Deleted found, d')
      | (Raise e, d') => (Raised e, d')
      end
  | LoadHistory =>
      match load_history (file d) with
      | Ok history => (Loaded history, d)
      | Raise e => (Raised e, d)
      end
  | GetHistoryCount =>
      match get_history_count d with
      | Ok n => (Counted n, d)
      | Raise e => (Raised e, d)
      end
  end.


(** ** Sample stores *)

Definition sample_entry (stamp : string) : HistoryEntry.t :=
  new_entry (pystr_of stamp) (pystr_of "41 42 43") (pystr_of "ABC")
    [Replacement.mk 0 8 (pystr_of "41 42 43") (pystr_of "ABC")].

(** The entry of a text that is one lone surrogate, U+D800, in which
    nothing is found to decode. *)
Definition surrogate_entry (stamp : string) : HistoryEntry.t :=
  new_entry (pystr_of stamp) [55296%N] [55296%N] [].

(** The file that a dump has left unfinished. *)
Definition cut_short : disk := {| file := NotJSON; writable := true |}.

(** A writable store that holds [history]. *)
Definition disk_with (history : list HistoryEntry.t) : disk :=
  {| file := Document (PList (map HistoryEntry.to_dict history));
     writable := true |}.

(** A full store: 1000 entries, the oldest one stamped apart. *)
Definition full_history : list HistoryEntry.t :=
  sample_entry "2024-01-01T00:00:00" ::
  repeat (sample_entry "2024-01-02T00:00:00") 999.

(** ** models.py: the figures derived from a result *)

(** [sum] of integers. *)
Definition py_sum (l : list Z) : Z := fold_left Z.add l 0%Z.

Section DerivedFigures.
Context {U : UnicodeDB}.

(** [DecodeResult.total_hex_bytes] *)
Definition total_hex_bytes (self : DecodeResult.t) : Z :=
  py_sum (map (fun r => Z.of_nat (length (findall HEX_TOKEN
                                            (Replacement.hex_run r))))
            (DecodeResult.replacements self)).

(** [DecodeResult.total_decoded_chars] *)
Definition total_decoded_chars (self : DecodeResult.t) : Z :=
  py_sum (map (fun r => Z.of_nat (length (Replacement.decoded r)))
            (DecodeResult.replacements self)).

End DerivedFigures.

(** ** ui/formatters.py *)

(** [s * n]: [n] copies of [s], none when [n] is negative. *)
Definition py_repeat (s : pystr) (n : Z) : pystr :=
  concat (repeat s (Z.to_nat n)).

(** [sep.join(l)] *)
Fixpoint join (sep : pystr) (l : list pystr) : pystr :=
  match l with
  | [] => []
  | x :: l' =>
      match l' with
      | [] => x
      | _ :: _ => x ++ sep ++ join sep l'
      end
  end.

(** [s.split(sep)] for a separator of one character: the pieces between
    the separators, one piece when there is none. *)
Fixpoint split_on (sep : char) (s : pystr) : list pystr :=
  match s with
  | [] => [[]]
  | c :: s' =>
      if (c =? sep)%N then [] :: split_on sep s'
      else
        match split_on sep s' with
        | piece :: pieces => (c :: piece) :: pieces
        | [] => [[c]]
        end
  end.

Definition BOX_TOP_LEFT : pystr := [9556%N].
Definition BOX_TOP_RIGHT : pystr := [9559%N].
Definition BOX_BOTTOM_LEFT : pystr := [9562%N].
Definition BOX_BOTTOM_RIGHT : pystr := [9565%N].
Definition BOX_HORIZONTAL : pystr := [9552%N].
Definition BOX_VERTICAL : pystr := [9553%N].

(** The body of the two loops of [create_aligned_banner], the same for a
    title line and for a line of the subtitle: the line is cut to
    [width - 4] characters and centered between the borders. *)
Definition centered_line (width : Z) (line : pystr) : pystr :=
  let line_len := Z.of_nat (length line) in
  let line :=
    if (line_len >? width - 4)%Z then slice_to line (width - 4) else line in
  let line_len := Z.of_nat (length line) in
  let padding := ((width - 2 - line_len) / 2)%Z in
  let left_pad := padding in
  let right_pad := (width - 2 - line_len - padding)%Z in
  BOX_VERTICAL ++ py_repeat (pystr_of " ") left_pad ++ line
  ++ py_repeat (pystr_of " ") right_pad ++ BOX_VERTICAL.

(** The list [lines] that [create_aligned_banner] joins. *)
Definition banner_lines (title_lines : list pystr) (subtitle : pystr)
  (width : Z) : list pystr :=
  let width := if (width mod 2 =? 0)%Z then (width + 1)%Z else width in
  let top_border :=
    BOX_TOP_LEFT ++ py_repeat BOX_HORIZONTAL (width - 2) ++ BOX_TOP_RIGHT in
  let bottom_border :=
    BOX_BOTTOM_LEFT ++ py_repeat BOX_HORIZONTAL (width - 2)
    ++ BOX_BOTTOM_RIGHT in
  let empty_line :=
    BOX_VERTICAL ++ py_repeat (pystr_of " ") (width - 2) ++ BOX_VERTICAL in
  let lines := [top_border; empty_line] in
  let lines := lines ++ map (centered_line width) title_lines in
  let lines :=
    match subtitle with
    | [] => lines
    | _ :: _ =>
        (lines ++ [empty_line])
        ++ map (centered_line width) (split_on 10%N subtitle)
    end in
  let lines := lines ++ [empty_line] in
  lines ++ [bottom_border].

Definition create_aligned_banner (title_lines : list pystr)
  (subtitle : pystr) (width : Z) : pystr :=
  join [10%N] (banner_lines title_lines subtitle width).

(** [sorted(reps, key=lambda x: x.start)]: the stable sort by [start]. *)
Fixpoint insert_by_start (r : Replacement.t) (l : list Replacement.t)
  : list Replacement.t :=
  match l with
  | [] => [r]
  | x :: l' =>
      if (Replacement.start r <=? Replacement.start x)%Z then r :: l
      else x :: insert_by_start r l'
  end.

Definition sorted_by_start (reps : list Replacement.t)
  : list Replacement.t :=
  fold_right insert_by_start [] reps.

(** The body of the loop of [format_text_with_highlights]; the state is
    [result] and [cursor]. *)
Definition highlight_step (original_text : pystr) (highlight_hex : bool)
  (state : list pystr * Z) (r : Replacement.t) : list pystr * Z :=
  let result := fst state in
  let cursor := snd state in
  let result :=
    result ++ [slice original_text cursor (Replacement.start r)] in
  let result :=
    if highlight_hex
    then result ++ [pystr_of "[bold yellow]"
                    ++ slice original_text (Replacement.start r)
                         (Replacement.end_ r)
                    ++ pystr_of "[/bold yellow]"]
    else result ++ [pystr_of "[bold green]" ++ Replacement.decoded r
                    ++ pystr_of "[/bold green]"] in
  (result, Replacement.end_ r).

Definition format_text_with_highlights (original_text : pystr)
  (reps : list Replacement.t) (highlight_hex : bool) : pystr :=
  match reps with
  | [] => original_text
  | _ :: _ =>
      let reps_sorted := sorted_by_start reps in
      let state :=
        fold_left (highlight_step original_text highlight_hex) reps_sorted
          ([], 0%Z) in
      let result := fst state ++ [slice_from original_text (snd state)] in
      concat result
  end.

(** The body of the loop of [format_decoded_text_with_highlights]. *)
Definition decoded_step (original_text : pystr)
  (state : list pystr * Z) (r : Replacement.t) : list pystr * Z :=
  let result := fst state in
  let cursor := snd state in
  let result :=
    result ++ [slice original_text cursor (Replacement.start r)] in
  let result :=
    result ++ [pystr_of "[bold green]" ++ Replacement.decoded r
               ++ pystr_of "[/bold green]"] in
  (result, Replacement.end_ r).

Definition format_decoded_text_with_highlights
  (decoded_text original_text : pystr) (reps : list Replacement.t)
  : pystr :=
  match reps with
  | [] => decoded_text
  | _ :: _ =>
      let reps_sorted := sorted_by_start reps in
      let state :=
        fold_left (decoded_step original_text) reps_sorted ([], 0%Z) in
      let result := fst state ++ [slice_from original_text (snd state)] in
      concat result
  end.

(** A replacement whose decoded string is what the display shows for it:
    the run in yellow tags, or the decoded string in green tags. *)
Definition tagged (original_text : pystr) (highlight_hex : bool)
  (r : Replacement.t) : Replacement.t :=
  Replacement.mk (Replacement.start r) (Replacement.end_ r)
    (Replacement.hex_run r)
    (if highlight_hex
     then pystr_of "[bold yellow]"
          ++ slice original_text (Replacement.start r) (Replacement.end_ r)
          ++ pystr_of "[/bold yellow]"
     else pystr_of "[bold green]" ++ Replacement.decoded r
          ++ pystr_of "[/bold green]").

(** No character of the class [P] at position [j]. *)
Definition class_ends (P : char -> bool) (s : pystr) (j : nat) : Prop :=
  match nth_error s j with
  | Some c => P c = false
  | None => True
  end.

(** A Unicode scalar value: a code point up to U+10FFFF that is not a
    surrogate. *)
Definition scalar_value (c : char) : Prop :=
  (c < 1114112)%N /\ ~ (55296 <= c <= 57343)%N.

(** A JSON object. *)
Definition is_dict (v : pyval) : bool :=
  match v with
  | PDict _ => true
  | _ => false
  end.

(** The byte that a token of two hexadecimal digits writes. *)
Definition token_byte (t : pystr) (b : byte) : Prop :=
  exists h1 h2 top bot,
    t = [h1; h2] /\ hex_value h1 = Some top /\ hex_value h2 = Some bot
    /\ b = (top * 16 + bot)%N.

(** * Properties *)

(** ** The engine against the matches *)

Section EngineFacts.
Context {U : UnicodeDB}.

Lemma iterate_le (P : nat -> nat -> Prop) :
  (forall i j, P i j -> i <= j) ->
  forall c i j, iterate P c i j -> i <= j.
Proof.
  intros HP c i j H. induction H as [i | c i j k Hij _ IH].
  - apply Nat.le_refl.
  - apply Nat.le_trans with j; [apply HP; exact Hij | exact IH].
Qed.

Lemma iterate_bound (P : nat -> nat -> Prop) (len : nat) :
  (forall i j, P i j -> i <= len -> j <= len) ->
  forall c i j, iterate P c i j -> i <= len -> j <= len.
Proof.
  intros HP c i j H. induction H as [i | c i j k Hij _ IH]; intro Hi.
  - exact Hi.
  - apply IH. apply (HP i j Hij Hi).
Qed.

Lemma matches_le (s : pystr) (r : regex) :
  forall i j, matches s r i j -> i <= j.
Proof.
  induction r as [ | p | | r1 IH1 r2 IH2 | r1 IH1 r2 IH2 | n r1 IH1];
    simpl; intros i j H.
  - destruct H as [_ ->]. apply Nat.le_refl.
  - destruct H as (c & _ & _ & ->). apply Nat.le_succ_diag_r.
  - destruct H as [_ ->]. apply Nat.le_refl.
  - destruct H as (m & H1 & H2).
    apply Nat.le_trans with m; [apply IH1 | apply IH2]; assumption.
  - destruct H as [H | H]; [apply IH1 | apply IH2]; exact H.
  - destruct H as (c & _ & H). apply (iterate_le _ IH1 _ _ _ H).
Qed.

Lemma matches_bound (s : pystr) (r : regex) :
  forall i j, matches s r i j -> i <= length s -> j <= length s.
Proof.
  induction r as [ | p | | r1 IH1 r2 IH2 | r1 IH1 r2 IH2 | n r1 IH1];
    simpl; intros i j H Hi.
  - destruct H as [_ ->]. exact Hi.
  - destruct H as (c & Hc & _ & ->).
    apply Nat.le_succ_l. apply nth_error_Some. rewrite Hc. discriminate.
  - destruct H as [_ ->]. exact Hi.
  - destruct H as (m & H1 & H2). eauto.
  - destruct H as [H | H]; eauto.
  - destruct H as (c & _ & H). apply (iterate_bound _ _ IH1 _ _ _ H Hi).
Qed.

Lemma iterate_lt (P : nat -> nat -> Prop) :
  (forall i j, P i j -> i < j) ->
  forall c i j, iterate P (S c) i j -> i < j.
Proof.
  intros HP c i j H. inversion H as [ | c' i' m k Him Hmk]; subst.
  apply Nat.lt_le_trans with m; [apply HP; exact Him | ].
  apply (iterate_le P (fun a b Hab => Nat.lt_le_incl _ _ (HP a b Hab))
           _ _ _ Hmk).
Qed.

Lemma consuming_lt (s : pystr) (r : regex) :
  consuming r = true -> forall i j, matches s r i j -> i < j.
Proof.
  induction r as [ | p | | r1 IH1 r2 IH2 | r1 IH1 r2 IH2 | n r1 IH1];
    simpl; intros Hc i j H; try discriminate.
  - destruct H as (c & _ & _ & ->). apply Nat.lt_succ_diag_r.
  - destruct H as (m & H1 & H2).
    apply orb_true_iff in Hc. destruct Hc as [Hc | Hc].
    + apply Nat.lt_le_trans with m; [apply IH1; assumption | ].
      apply (matches_le _ _ _ _ H2).
    + apply Nat.le_lt_trans with m; [apply (matches_le _ _ _ _ H1) | ].
      apply IH2; assumption.
  - apply andb_true_iff in Hc. destruct Hc as [Hc1 Hc2].
    destruct H as [H | H]; [apply IH1 | apply IH2]; assumption.
  - apply andb_true_iff in Hc. destruct Hc as [Hn Hc].
    apply Nat.ltb_lt in Hn. destruct H as (c & Hle & H).
    destruct c as [ | c]; [lia | ].
    apply (iterate_lt _ (IH1 Hc) _ _ _ H).
Qed.

(** The loop returns what the continuation returns after some number of
    iterations that reaches the minimum. *)
Lemma repeat_greedy_sound (P : nat -> nat -> Prop)
  (body : (nat -> option nat) -> nat -> option nat) (n : nat)
  (k : nat -> option nat) :
  (forall k' i e, body k' i = Some e -> exists j, P i j /\ k' j = Some e) ->
  forall fuel count i e,
    repeat_greedy body n k fuel count i = Some e ->
    exists c j, n <= count + c /\ iterate P c i j /\ k j = Some e.
Proof.
  intros Hbody fuel.
  assert (Hstop : forall count i e,
             (if n <=? count then k i else None) = Some e ->
             exists c j, n <= count + c /\ iterate P c i j /\ k j = Some e).
  { intros count i e H. destruct (n <=? count) eqn:Hn; [ | discriminate].
    apply Nat.leb_le in Hn. exists 0, i. repeat split.
    - lia.
    - constructor.
    - exact H. }
  induction fuel as [ | fuel IH]; intros count i e H; simpl in H.
  - apply Hstop. exact H.
  - destruct (body _ i) as [e' | ] eqn:Hb.
    + injection H as ->. apply Hbody in Hb. destruct Hb as (j & Hij & Hk).
      destruct (i <? j); [ | discriminate].
      apply IH in Hk. destruct Hk as (c & j' & Hle & Hit & Hk).
      exists (S c), j'. repeat split.
      * lia.
      * econstructor; eassumption.
      * exact Hk.
    + apply Hstop. exact H.
Qed.

(** Soundness: a result of the engine comes from a match. *)
Lemma exec_sound (s : pystr) (r : regex) :
  forall k i e, exec r s k i = Some e ->
  exists j, matches s r i j /\ k j = Some e.
Proof.
  induction r as [ | p | | r1 IH1 r2 IH2 | r1 IH1 r2 IH2 | n r1 IH1];
    cbn [exec matches]; intros k i e H.
  - destruct (at_boundary s i) eqn:Hb; [ | discriminate]. eauto.
  - destruct (nth_error s i) as [c | ] eqn:Hc; [ | discriminate].
    destruct (p c) eqn:Hp; [ | discriminate]. exists (S i). eauto.
  - destruct (at_line_end s i) eqn:Hb; [ | discriminate]. eauto.
  - apply IH1 in H. destruct H as (m & H1 & H).
    apply IH2 in H. destruct H as (j & H2 & H). eauto.
  - destruct (exec r1 s k i) as [e' | ] eqn:H1.
    + injection H as ->. apply IH1 in H1. destruct H1 as (j & ? & ?). eauto.
    + apply IH2 in H. destruct H as (j & ? & ?). eauto.
  - apply (repeat_greedy_sound (matches s r1) _ _ _ IH1) in H.
    destruct H as (c & j & Hle & Hit & Hk). exists j. split; [ | exact Hk].
    exists c. split; [lia | exact Hit].
Qed.

(** The loop fails only when the continuation fails after every sequence
    of iterations that reaches the minimum. *)
Lemma repeat_greedy_complete (P : nat -> nat -> Prop)
  (body : (nat -> option nat) -> nat -> option nat) (n len : nat)
  (k : nat -> option nat) :
  (forall k' i, i <= len -> body k' i = None ->
                forall j, P i j -> k' j = None) ->
  (forall i j, P i j -> i < j) ->
  (forall i j, P i j -> i <= len -> j <= len) ->
  forall fuel count i,
    i <= len -> len - i < fuel ->
    repeat_greedy body n k fuel count i = None ->
    forall c j, n <= count + c -> iterate P c i j -> k j = None.
Proof.
  intros Hbody Hlt Hbound fuel.
  induction fuel as [ | fuel IH]; intros count i Hi Hfuel H c j Hle Hit.
  - lia.
  - simpl in H. destruct (body _ i) as [e' | ] eqn:Hb; [discriminate | ].
    inversion Hit as [i' | c' i' m j' Him Hmj]; subst.
    + replace (n <=? count) with true in H; [exact H | ].
      symmetry. apply Nat.leb_le. lia.
    + pose proof (Hlt _ _ Him) as Hlt'.
      pose proof (Hbound _ _ Him Hi) as Hm.
      apply (Hbody _ i Hi Hb) in Him as Hk.
      apply Nat.ltb_lt in Hlt' as Hlt''. rewrite Hlt'' in Hk.
      apply (IH (S count) m Hm ltac:(lia) Hk c' j ltac:(lia) Hmj).
Qed.

(** Completeness: the engine fails only when no match has a continuation
    that succeeds. *)
Lemma exec_complete (s : pystr) (r : regex) :
  progressing r = true ->
  forall k i, i <= length s -> exec r s k i = None ->
  forall j, matches s r i j -> k j = None.
Proof.
  induction r as [ | p | | r1 IH1 r2 IH2 | r1 IH1 r2 IH2 | n r1 IH1];
    cbn [exec matches progressing]; intros Hp k i Hi H j Hm.
  - destruct Hm as [Hb ->]. rewrite Hb in H. exact H.
  - destruct Hm as (c & Hc & Hpc & ->). rewrite Hc, Hpc in H. exact H.
  - destruct Hm as [Hb ->]. rewrite Hb in H. exact H.
  - apply andb_true_iff in Hp. destruct Hp as [Hp1 Hp2].
    destruct Hm as (m & H1 & H2).
    apply (IH2 Hp2 k m (matches_bound _ _ _ _ H1 Hi)); [ | exact H2].
    apply (IH1 Hp1 _ i Hi H m H1).
  - apply andb_true_iff in Hp. destruct Hp as [Hp1 Hp2].
    destruct (exec r1 s k i) eqn:H1; [discriminate | ].
    destruct Hm as [Hm | Hm]; eauto.
  - apply andb_true_iff in Hp. destruct Hp as [Hc Hp1].
    destruct Hm as (c & Hle & Hit).
    apply (repeat_greedy_complete (matches s r1) (exec r1 s) n (length s) k
             (IH1 Hp1) (consuming_lt s r1 Hc) (matches_bound s r1)
             (S (length s - i)) 0 i Hi ltac:(lia) H c j ltac:(lia) Hit).
Qed.

(** The engine looks at its continuation from the current position on
    only. *)
Lemma repeat_greedy_ext
  (body : (nat -> option nat) -> nat -> option nat) (n len : nat) :
  (forall k k' i, i <= len -> (forall j, i <= j <= len -> k j = k' j) ->
                  body k i = body k' i) ->
  forall k k' fuel count i,
    i <= len -> (forall j, i <= j <= len -> k j = k' j) ->
    repeat_greedy body n k fuel count i
    = repeat_greedy body n k' fuel count i.
Proof.
  intros Hbody k k' fuel.
  induction fuel as [ | fuel IH]; intros count i Hi Hk; cbn [repeat_greedy].
  - rewrite (Hk i) by lia. reflexivity.
  - rewrite (Hk i) by lia.
    rewrite (Hbody _ (fun j => if i <? j
                               then repeat_greedy body n k' fuel (S count) j
                               else None) i Hi).
    + reflexivity.
    + intros j Hj. destruct (Nat.ltb_spec i j) as [Hlt | Hge];
        [ | reflexivity].
      apply IH; [lia | ]. intros j' Hj'. apply Hk. lia.
Qed.

Lemma exec_ext (s : pystr) (r : regex) :
  forall k k' i,
    i <= length s -> (forall j, i <= j <= length s -> k j = k' j) ->
    exec r s k i = exec r s k' i.
Proof.
  induction r as [ | p | | r1 IH1 r2 IH2 | r1 IH1 r2 IH2 | n r1 IH1];
    cbn [exec]; intros k k' i Hi Hk.
  - rewrite (Hk i) by lia. reflexivity.
  - destruct (nth_error s i) as [c | ] eqn:Hc; [ | reflexivity].
    assert (Hlt : i < length s)
      by (apply nth_error_Some; rewrite Hc; discriminate).
    rewrite (Hk (S i)) by lia. reflexivity.
  - rewrite (Hk i) by lia. reflexivity.
  - apply IH1; [exact Hi | ]. intros j Hj. apply IH2; [lia | ].
    intros j' Hj'. apply Hk. lia.
  - rewrite (IH1 k k' i Hi Hk), (IH2 k k' i Hi Hk). reflexivity.
  - apply (repeat_greedy_ext (exec r1 s) n (length s) IH1); assumption.
Qed.

(** The fuel of the loop is enough: with more fuel the result is the
    same. *)
Lemma repeat_greedy_fuel
  (body : (nat -> option nat) -> nat -> option nat) (n len : nat)
  (k : nat -> option nat) :
  (forall k k' i, i <= len -> (forall j, i <= j <= len -> k j = k' j) ->
                  body k i = body k' i) ->
  forall fuel count i,
    i <= len -> len - i < fuel ->
    repeat_greedy body n k (S fuel) count i
    = repeat_greedy body n k fuel count i.
Proof.
  intros Hbody fuel.
  induction fuel as [ | fuel IH]; intros count i Hi Hfuel; [lia | ].
  cbn [repeat_greedy].
  rewrite (Hbody _ (fun j => if i <? j
                             then repeat_greedy body n k fuel (S count) j
                             else None) i Hi).
  - reflexivity.
  - intros j Hj. destruct (Nat.ltb_spec i j) as [Hlt | Hge];
      [ | reflexivity].
    apply (IH (S count) j); lia.
Qed.

Lemma exec_enough_fuel (s : pystr) (r : regex) (n : nat)
  (k : nat -> option nat) (i extra : nat) :
  i <= length s ->
  repeat_greedy (exec r s) n k (S (length s - i) + extra) 0 i
  = exec (AtLeast n r) s k i.
Proof.
  intro Hi. induction extra as [ | extra IH].
  - rewrite Nat.add_0_r. reflexivity.
  - rewrite <- IH. rewrite Nat.add_succ_r.
    apply (repeat_greedy_fuel (exec r s) n (length s) k (exec_ext s r));
      lia.
Qed.

End EngineFacts.

(** ** Substrings *)

Section Substrings.
Context {A : Type}.

Lemma firstn_plus (a b : nat) (l : list A) :
  firstn (a + b) l = firstn a l ++ firstn b (skipn a l).
Proof.
  revert l. induction a as [ | a IH]; intros [ | x l]; simpl.
  - reflexivity.
  - reflexivity.
  - rewrite firstn_nil. reflexivity.
  - rewrite IH. reflexivity.
Qed.

Lemma substr_same (s : list A) (i : nat) : substr s i i = [].
Proof. unfold substr. rewrite Nat.sub_diag. reflexivity. Qed.

Lemma substr_split (s : list A) (i j k : nat) :
  i <= j -> j <= k -> substr s i k = substr s i j ++ substr s j k.
Proof.
  intros Hij Hjk. unfold substr.
  replace (k - i) with ((j - i) + (k - j)) by lia.
  rewrite firstn_plus, skipn_skipn.
  replace (j - i + i) with j by lia. reflexivity.
Qed.

Lemma substr_single (s : list A) (i : nat) (c : A) :
  nth_error s i = Some c -> substr s i (S i) = [c].
Proof.
  intro H. unfold substr. replace (S i - i) with 1 by lia.
  rewrite <- (firstn_skipn_middle i s H) at 1.
  rewrite skipn_app, skipn_all2 by (rewrite length_firstn; lia).
  assert (Hlt : i < length s)
    by (apply nth_error_Some; rewrite H; discriminate).
  rewrite length_firstn. replace (i - Nat.min i (length s)) with 0 by lia.
  reflexivity.
Qed.

Lemma length_substr (s : list A) (i j : nat) :
  j <= length s -> length (substr s i j) = j - i.
Proof.
  intro H. unfold substr. rewrite length_firstn, length_skipn. lia.
Qed.

Lemma substr_all (s : list A) : substr s 0 (length s) = s.
Proof.
  unfold substr. rewrite Nat.sub_0_r. simpl. apply firstn_all.
Qed.

Lemma nth_error_middle (pre : list A) (x : A) (rest : list A) :
  nth_error (pre ++ x :: rest) (length pre) = Some x.
Proof.
  rewrite nth_error_app2 by apply Nat.le_refl.
  rewrite Nat.sub_diag. reflexivity.
Qed.

Lemma substr_app_r (pre s : list A) (i j : nat) :
  substr (pre ++ s) (length pre + i) (length pre + j) = substr s i j.
Proof.
  unfold substr. rewrite skipn_app.
  rewrite skipn_all2 by lia.
  replace (length pre + i - length pre) with i by lia.
  replace (length pre + j - (length pre + i)) with (j - i) by lia.
  reflexivity.
Qed.

Lemma clip_of_nat (s : list A) (i : nat) :
  i <= length s -> clip s (Z.of_nat i) = i.
Proof.
  intro H. unfold clip, adjust_index.
  destruct (Z.ltb_spec (Z.of_nat i) 0); lia.
Qed.

Lemma slice_substr (s : list A) (i j : nat) :
  i <= length s -> j <= length s ->
  slice s (Z.of_nat i) (Z.of_nat j) = substr s i j.
Proof.
  intros Hi Hj. unfold slice. rewrite !clip_of_nat by assumption.
  reflexivity.
Qed.

End Substrings.

(** ** Searching and scanning *)

Section ScanFacts.
Context {U : UnicodeDB}.

Lemma match_at_sound (r : regex) (s : pystr) (i e : nat) :
  match_at r s i = Some e -> matches s r i e.
Proof.
  intro H. apply exec_sound in H. destruct H as (j & Hm & Hj).
  injection Hj as <-. exact Hm.
Qed.

Lemma match_at_complete (r : regex) (s : pystr) (i j : nat) :
  progressing r = true -> i <= length s ->
  matches s r i j -> exists e, match_at r s i = Some e.
Proof.
  intros Hp Hi Hm. destruct (match_at r s i) as [e | ] eqn:H.
  - exists e. reflexivity.
  - pose proof (exec_complete s r Hp Some i Hi H j Hm) as Hk.
    discriminate Hk.
Qed.

Lemma search_from_some (r : regex) (s : pystr) (n i st en : nat) :
  search_from r s i n = Some (st, en) ->
  i <= st <= i + n /\ match_at r s st = Some en
  /\ forall p, i <= p < st -> match_at r s p = None.
Proof.
  revert i. induction n as [ | n IH]; intros i H; simpl in H.
  - destruct (match_at r s i) as [e | ] eqn:Hm; [ | discriminate].
    injection H as <- <-. repeat split; try lia. exact Hm.
  - destruct (match_at r s i) as [e | ] eqn:Hm.
    + injection H as <- <-. repeat split; try lia. exact Hm.
    + apply IH in H. destruct H as (Hle & Hst & Hnone).
      repeat split; try lia; [exact Hst | ].
      intros p Hp. destruct (Nat.eq_dec p i) as [-> | Hne].
      * exact Hm.
      * apply Hnone. lia.
Qed.

Lemma search_from_none (r : regex) (s : pystr) (n i : nat) :
  search_from r s i n = None ->
  forall p, i <= p <= i + n -> match_at r s p = None.
Proof.
  revert i. induction n as [ | n IH]; intros i H p Hp; simpl in H.
  - destruct (match_at r s i) eqn:Hm; [discriminate | ].
    replace p with i by lia. exact Hm.
  - destruct (match_at r s i) eqn:Hm; [discriminate | ].
    destruct (Nat.eq_dec p i) as [-> | Hne]; [exact Hm | ].
    apply (IH (S i) H). lia.
Qed.

Lemma search_from_found (r : regex) (s : pystr) (n i st en : nat) :
  i <= st <= i + n -> match_at r s st = Some en ->
  (forall p, i <= p < st -> match_at r s p = None) ->
  search_from r s i n = Some (st, en).
Proof.
  revert i. induction n as [ | n IH]; intros i Hst Hm Hnone.
  - replace i with st by lia. simpl. rewrite Hm. reflexivity.
  - simpl. destruct (Nat.eq_dec st i) as [-> | Hne].
    + rewrite Hm. reflexivity.
    + rewrite (Hnone i) by lia. apply IH; [lia | exact Hm | ].
      intros p Hp. apply Hnone. lia.
Qed.

Lemma search_some (r : regex) (s : pystr) (pos st en : nat) :
  search r s pos = Some (st, en) ->
  pos <= st <= length s /\ match_at r s st = Some en
  /\ forall p, pos <= p < st -> match_at r s p = None.
Proof.
  unfold search. destruct (Nat.leb_spec pos (length s)) as [Hpos | Hpos];
    [ | discriminate].
  intro H. apply search_from_some in H.
  destruct H as (Hle & Hm & Hnone). repeat split; try lia; assumption.
Qed.

Lemma search_none (r : regex) (s : pystr) (pos : nat) :
  search r s pos = None ->
  forall p, pos <= p <= length s -> match_at r s p = None.
Proof.
  unfold search. destruct (Nat.leb_spec pos (length s)) as [Hpos | Hpos].
  - intros H p Hp. apply (search_from_none _ _ _ _ H). lia.
  - intros _ p Hp. lia.
Qed.

Lemma search_found (r : regex) (s : pystr) (pos st en : nat) :
  pos <= st <= length s -> match_at r s st = Some en ->
  (forall p, pos <= p < st -> match_at r s p = None) ->
  search r s pos = Some (st, en).
Proof.
  intros Hst Hm Hnone. unfold search.
  destruct (Nat.leb_spec pos (length s)); [ | lia].
  apply search_from_found; [lia | exact Hm | exact Hnone].
Qed.

(** Positions at which nothing matches are skipped. *)
Lemma search_skip (r : regex) (s : pystr) (a b : nat) :
  a <= b <= length s ->
  (forall p, a <= p < b -> match_at r s p = None) ->
  search r s a = search r s b.
Proof.
  intros Hab Hnone. destruct (search r s b) as [[st en] | ] eqn:Hb.
  - apply search_some in Hb. destruct Hb as (Hle & Hm & Hn).
    apply search_found; [lia | exact Hm | ].
    intros p Hp. destruct (Nat.lt_ge_cases p b).
    + apply Hnone. lia.
    + apply Hn. lia.
  - destruct (search r s a) as [[st en] | ] eqn:Ha; [ | reflexivity].
    apply search_some in Ha. destruct Ha as (Hle & Hm & Hn).
    destruct (Nat.lt_ge_cases st b).
    + rewrite Hnone in Hm by lia. discriminate.
    + rewrite (search_none _ _ _ Hb st) in Hm by lia. discriminate.
Qed.

Lemma finditer_from_skip (r : regex) (s : pystr) (fuel a b : nat) :
  a <= b <= length s ->
  (forall p, a <= p < b -> match_at r s p = None) ->
  finditer_from r s fuel a = finditer_from r s fuel b.
Proof.
  intros Hab Hnone. destruct fuel as [ | fuel]; [reflexivity | ].
  simpl. rewrite (search_skip r s a b Hab Hnone). reflexivity.
Qed.

Lemma finditer_from_chain (r : regex) (s : pystr) :
  consuming r = true ->
  forall fuel pos, chain (length s) pos (finditer_from r s fuel pos).
Proof.
  intros Hc fuel. induction fuel as [ | fuel IH]; intro pos; simpl.
  - constructor.
  - destruct (search r s pos) as [[st en] | ] eqn:Hs; [ | constructor].
    apply search_some in Hs. destruct Hs as (Hle & Hm & _).
    apply match_at_sound in Hm.
    pose proof (consuming_lt s r Hc _ _ Hm) as Hlt.
    pose proof (matches_bound s r _ _ Hm ltac:(lia)) as Hen.
    apply Nat.ltb_lt in Hlt as Hltb. rewrite Hltb.
    constructor; try lia. apply IH.
Qed.

Lemma finditer_from_matches (r : regex) (s : pystr) :
  forall fuel pos,
    Forall (fun m => matches s r (fst m) (snd m) /\ fst m <= length s)
      (finditer_from r s fuel pos).
Proof.
  intro fuel. induction fuel as [ | fuel IH]; intro pos; simpl.
  - constructor.
  - destruct (search r s pos) as [[st en] | ] eqn:Hs; [ | constructor].
    apply search_some in Hs. destruct Hs as (Hle & Hm & _).
    constructor; [ | apply IH].
    simpl. split; [apply match_at_sound; exact Hm | lia].
Qed.

(** The fuel of [finditer] is enough: more fuel finds the same spans. *)
Lemma finditer_from_fuel (r : regex) (s : pystr) :
  forall fuel fuel' pos,
    length s < fuel + pos -> length s < fuel' + pos ->
    finditer_from r s fuel pos = finditer_from r s fuel' pos.
Proof.
  intro fuel. induction fuel as [ | fuel IH]; intros fuel' pos H H'.
  - destruct fuel' as [ | fuel']; [reflexivity | ]. simpl.
    unfold search. destruct (Nat.leb_spec pos (length s)); [lia | ].
    reflexivity.
  - destruct fuel' as [ | fuel'].
    + simpl. unfold search.
      destruct (Nat.leb_spec pos (length s)); [lia | ]. reflexivity.
    + simpl. destruct (search r s pos) as [[st en] | ] eqn:Hs;
        [ | reflexivity].
      f_equal. apply search_some in Hs. destruct Hs as (Hle & Hm & _).
      apply match_at_sound, matches_le in Hm.
      apply IH; destruct (Nat.ltb_spec st en); lia.
Qed.

Lemma finditer_none (r : regex) (s : pystr) :
  (forall i j, ~ matches s r i j) -> finditer r s = [].
Proof.
  intro Hno. unfold finditer. simpl.
  destruct (search r s 0) as [[st en] | ] eqn:Hs; [ | reflexivity].
  apply search_some in Hs. destruct Hs as (_ & Hm & _).
  apply match_at_sound in Hm. destruct (Hno _ _ Hm).
Qed.

Lemma consuming_start (s : pystr) (r : regex) :
  consuming r = true -> forall i j, matches s r i j -> i < length s.
Proof.
  intros Hc i j Hm.
  destruct (Nat.lt_ge_cases i (length s)) as [Hlt | Hge]; [exact Hlt | ].
  exfalso. revert Hc i j Hm Hge.
  induction r as [ | p | | r1 IH1 r2 IH2 | r1 IH1 r2 IH2 | n r1 IH1];
    simpl; intros Hc i j Hm Hge; try discriminate.
  - destruct Hm as (c & Hc' & _).
    apply nth_error_None in Hge. rewrite Hge in Hc'. discriminate.
  - destruct Hm as (m & H1 & H2).
    apply orb_true_iff in Hc. destruct Hc as [Hc | Hc].
    + apply (IH1 Hc _ _ H1 Hge).
    + apply (IH2 Hc _ _ H2).
      apply Nat.le_trans with i; [exact Hge | apply (matches_le _ _ _ _ H1)].
  - apply andb_true_iff in Hc. destruct Hc as [Hc1 Hc2].
    destruct Hm as [Hm | Hm]; eauto.
  - apply andb_true_iff in Hc. destruct Hc as [Hn Hc].
    apply Nat.ltb_lt in Hn. destruct Hm as (c & Hle & Hit).
    inversion Hit as [ | c' i' m k Him Hmk]; subst; [lia | ].
    apply (IH1 Hc _ _ Him Hge).
Qed.

(** The scan finds nothing exactly when the pattern matches nowhere. *)
Lemma finditer_nil_iff (r : regex) (s : pystr) :
  consuming r = true -> progressing r = true ->
  finditer r s = [] <-> forall i j, ~ matches s r i j.
Proof.
  intros Hc Hp. split; [ | apply finditer_none].
  unfold finditer. simpl.
  destruct (search r s 0) as [[st en] | ] eqn:Hs; [discriminate | ].
  intros _ i j Hm.
  pose proof (consuming_start s r Hc _ _ Hm) as Hi.
  destruct (match_at_complete r s i j Hp ltac:(lia) Hm) as (e & He).
  rewrite (search_none _ _ _ Hs i) in He by lia. discriminate.
Qed.

End ScanFacts.

(** ** Detection: the spans of the replacements *)

Section DetectionFacts.
Context {U : UnicodeDB}.

Lemma consuming_HEX_RUN : consuming HEX_RUN = true.
Proof. reflexivity. Qed.

Lemma progressing_HEX_RUN : progressing HEX_RUN = true.
Proof. reflexivity. Qed.

Lemma on_match_acc (text : pystr) (acc : list Replacement.t)
  (m : nat * nat) :
  on_match text acc m = acc ++ on_match text [] m.
Proof.
  unfold on_match. destruct (_decode_hex_bytes _) as [ | c d].
  - rewrite app_nil_r. reflexivity.
  - reflexivity.
Qed.

(** The loop of [find_replacements] adds to the list, for each match in
    turn, what the match alone gives. *)
Lemma fold_on_match (text : pystr) (ms : list (nat * nat)) :
  forall acc,
    fold_left (on_match text) ms acc
    = acc ++ flat_map (on_match text []) ms.
Proof.
  induction ms as [ | m ms IH]; intro acc; cbn [fold_left flat_map].
  - rewrite app_nil_r. reflexivity.
  - rewrite IH, on_match_acc, app_assoc. reflexivity.
Qed.

Lemma find_replacements_flat_map (text : pystr) :
  find_replacements text
  = flat_map (on_match text []) (finditer HEX_RUN text).
Proof. unfold find_replacements. apply fold_on_match. Qed.

(** What a match gives: nothing, or one replacement that spans it. *)
Lemma on_match_cases (text : pystr) (m : nat * nat) :
  on_match text [] m = []
  \/ exists d,
      on_match text [] m
      = [Replacement.mk (Z.of_nat (fst m)) (Z.of_nat (snd m))
           (substr text (fst m) (snd m)) d].
Proof.
  unfold on_match. destruct (_decode_hex_bytes _) as [ | c d].
  - left. reflexivity.
  - right. eexists. reflexivity.
Qed.

Lemma well_ordered_weaken (len lo lo' : Z) (reps : list Replacement.t) :
  (lo' <= lo)%Z -> well_ordered len lo reps -> well_ordered len lo' reps.
Proof.
  intros Hlo H. destruct H as [lo | lo r rest H1 H2 H3 H4].
  - constructor.
  - constructor; try assumption. lia.
Qed.

Lemma chain_well_ordered (text : pystr) (ms : list (nat * nat)) :
  forall lo,
    chain (length text) lo ms ->
    well_ordered (Z.of_nat (length text)) (Z.of_nat lo)
      (flat_map (on_match text []) ms)
    /\ Forall (span_invariant text) (flat_map (on_match text []) ms).
Proof.
  induction ms as [ | m ms IH]; intros lo H; simpl.
  - split; constructor.
  - inversion H as [ | lo' st en rest Hlo Hlt Hen Hrest]; subst.
    destruct (IH en Hrest) as [IHo IHf].
    destruct (on_match_cases text (st, en)) as [-> | (d & ->)]; simpl.
    + split; [ | exact IHf].
      apply (well_ordered_weaken _ (Z.of_nat en)); [lia | exact IHo].
    + split.
      * constructor; simpl; try lia. exact IHo.
      * constructor; [ | exact IHf].
        unfold span_invariant; simpl. repeat split; try lia.
        apply slice_substr; lia.
Qed.

Lemma well_ordered_lower (len : Z) (reps : list Replacement.t) :
  forall lo, well_ordered len lo reps ->
  Forall (fun r => (lo <= Replacement.start r)%Z) reps.
Proof.
  induction reps as [ | r rest IH]; intros lo H.
  - constructor.
  - inversion H as [ | lo' r' rest' H1 H2 H3 H4]; subst.
    constructor; [exact H1 | ].
    apply IH in H4. revert H4. apply Forall_impl. intros r'. lia.
Qed.

Lemma well_ordered_left_to_right (len : Z) (reps : list Replacement.t) :
  forall lo, well_ordered len lo reps -> left_to_right reps.
Proof.
  induction reps as [ | r rest IH]; intros lo H a b ra rb Hab Ha Hb.
  - destruct a; discriminate.
  - inversion H as [ | lo' r' rest' H1 H2 H3 H4]; subst.
    destruct b as [ | b]; [lia | ]. simpl in Hb.
    destruct a as [ | a]; simpl in Ha.
    + injection Ha as <-.
      pose proof (well_ordered_lower _ _ _ H4) as Hlow.
      rewrite Forall_forall in Hlow. apply Hlow.
      apply (nth_error_In _ _ Hb).
    + apply (IH _ H4 a b ra rb); [lia | assumption | assumption].
Qed.

Lemma left_to_right_disjoint (reps : list Replacement.t) :
  left_to_right reps -> disjoint_spans reps.
Proof.
  intros H a b ra rb p Ha Hb Hpa Hpb. unfold covers in *.
  destruct (Nat.lt_trichotomy a b) as [Hlt | [Heq | Hgt]].
  - pose proof (H a b ra rb Hlt Ha Hb). lia.
  - exact Heq.
  - pose proof (H b a rb ra Hgt Hb Ha). lia.
Qed.

(** C3. For every text, each replacement that [find_replacements] returns
    has [0 <= start < end <= len(text)] and [text[start:end] == hex_run];
    the replacements are in left-to-right order and no position of the
    text belongs to two of them. *)
Theorem find_replacements_spans (text : pystr) :
  Forall (span_invariant text) (find_replacements text)
  /\ left_to_right (find_replacements text)
  /\ disjoint_spans (find_replacements text).
Proof.
  rewrite find_replacements_flat_map.
  pose proof (finditer_from_chain HEX_RUN text consuming_HEX_RUN
                (S (length text)) 0) as Hchain.
  apply chain_well_ordered in Hchain. destruct Hchain as [Ho Hf].
  apply well_ordered_left_to_right in Ho.
  repeat split; [exact Hf | exact Ho | ].
  apply left_to_right_disjoint. exact Ho.
Qed.

Lemma drop_spaces_split (s : pystr) :
  exists ws, s = ws ++ drop_spaces s
             /\ Forall (fun c => is_space c = true) ws.
Proof.
  induction s as [ | c s IH]; simpl.
  - exists []. split; [reflexivity | constructor].
  - destruct (is_space c) eqn:Hc.
    + destruct IH as (ws & Hs & Hws). exists (c :: ws). split.
      * simpl. rewrite <- Hs. reflexivity.
      * constructor; assumption.
    + exists []. split; [reflexivity | constructor].
Qed.

(** [rstrip] takes whitespace, and nothing else, off the end. *)
Lemma rstrip_split (s : pystr) :
  exists ws, s = rstrip s ++ ws
             /\ Forall (fun c => is_space c = true) ws.
Proof.
  destruct (drop_spaces_split (rev s)) as (ws & Hs & Hws).
  exists (rev ws). split.
  - unfold rstrip. rewrite <- rev_app_distr, <- Hs, rev_involutive.
    reflexivity.
  - apply Forall_rev. exact Hws.
Qed.

Lemma rstrip_skipn (s : pystr) :
  s = rstrip s ++ skipn (length (rstrip s)) s.
Proof.
  destruct (rstrip_split s) as (ws & Hs & _).
  remember (rstrip s) as p eqn:Hp. clear Hp. subst s.
  rewrite skipn_app, skipn_all, Nat.sub_diag. reflexivity.
Qed.

Lemma rstrip_rest_spaces (s : pystr) :
  Forall (fun c => is_space c = true) (skipn (length (rstrip s)) s).
Proof.
  destruct (rstrip_split s) as (ws & Hs & Hws).
  pose proof (rstrip_skipn s) as Hk.
  remember (rstrip s) as p eqn:Hp. clear Hp.
  rewrite Hs in Hk at 1. apply app_inv_head in Hk.
  rewrite <- Hk. exact Hws.
Qed.

(** The trailing whitespace that the loop remembers. *)
Lemma trailing_ws_skipn (run : pystr) :
  (if length (rstrip run) <? length run
   then skipn (length (rstrip run)) run else [])
  = skipn (length (rstrip run)) run.
Proof.
  destruct (Nat.ltb_spec (length (rstrip run)) (length run)) as [H | H].
  - reflexivity.
  - symmetry. apply skipn_all2. exact H.
Qed.

(** C1, as the code has it. For every text and every replacement of
    [find_replacements], [hex_run] is the exact substring that the
    detection pattern matched, [text[start:end]], trailing whitespace
    included: it is the stripped run followed by the whitespace that was
    stripped, and that whitespace also ends [decoded]. *)
Theorem hex_run_is_whole_match (text : pystr) :
  Forall (fun r =>
            exists st en ws,
              Replacement.start r = Z.of_nat st
              /\ Replacement.end_ r = Z.of_nat en
              /\ matches text HEX_RUN st en
              /\ Replacement.hex_run r = substr text st en
              /\ Replacement.hex_run r
                 = rstrip (Replacement.hex_run r) ++ ws
              /\ Forall (fun c => is_space c = true) ws
              /\ Replacement.decoded r
                 = _decode_hex_bytes
                     (findall HEX_TOKEN (rstrip (Replacement.hex_run r)))
                   ++ ws)
    (find_replacements text).
Proof.
  rewrite find_replacements_flat_map. unfold finditer.
  pose proof (finditer_from_matches HEX_RUN text (S (length text)) 0) as Hm.
  induction Hm as [ | [st en] ms [Hm _] _ IH]; simpl.
  - constructor.
  - apply Forall_app. split; [ | exact IH].
    unfold on_match; simpl.
    destruct (_decode_hex_bytes _) as [ | c d] eqn:Hd; constructor;
      [ | constructor].
    simpl. exists st, en, (skipn (length (rstrip (substr text st en)))
                             (substr text st en)).
    repeat split; try assumption.
    + apply rstrip_skipn.
    + apply rstrip_rest_spaces.
    + rewrite Hd, trailing_ws_skipn. reflexivity.
Qed.

(** C7. A text in which the detection pattern matches nowhere is returned
    unchanged, with no replacement. *)
Theorem decode_text_without_run (text : pystr) :
  (forall i j, ~ matches text HEX_RUN i j) ->
  decode_text text = DecodeResult.mk text text [] 0.
Proof.
  intro Hno. unfold decode_text.
  rewrite find_replacements_flat_map, (finditer_none HEX_RUN text Hno).
  reflexivity.
Qed.

End DetectionFacts.

(** C1, as the specification has it, fails: in ["41 42 43 x"] the run is
    matched with the space that follows it, and [hex_run] keeps that
    space. *)
Lemma hex_run_keeps_trailing_space :
  let text := pystr_of "41 42 43 x" in
  ~ Forall (fun r =>
              Replacement.hex_run r
              = rstrip (U := ascii_db)
                  (slice text (Replacement.start r) (Replacement.end_ r)))
      (find_replacements (U := ascii_db) text).
Proof.
  intros text H.
  assert (E : find_replacements (U := ascii_db) text
              = [Replacement.mk 0 9 (pystr_of "41 42 43 ")
                   (pystr_of "ABC ")])
    by (vm_compute; reflexivity).
  rewrite E in H. inversion H as [ | r l Hr _]; subst.
  vm_compute in Hr. discriminate Hr.
Qed.

Lemma decode_text_without_run_witness :
  decode_text (U := ascii_db) (pystr_of "AB CD")
  = DecodeResult.mk (pystr_of "AB CD") (pystr_of "AB CD") [] 0.
Proof.
  apply (decode_text_without_run (U := ascii_db)).
  apply (finditer_nil_iff (U := ascii_db)); reflexivity.
Defined.

(** ** Substitution *)

Section SubstitutionFacts.

Lemma clip_in_range (s : pystr) (z : Z) :
  (0 <= z <= Z.of_nat (length s))%Z -> clip s z = Z.to_nat z.
Proof.
  intro H. unfold clip, adjust_index.
  destruct (Z.ltb_spec z 0); lia.
Qed.

Lemma slice_to_firstn (s : pystr) (z : Z) :
  (0 <= z <= Z.of_nat (length s))%Z -> slice_to s z = firstn (Z.to_nat z) s.
Proof. intro H. unfold slice_to. rewrite clip_in_range by lia. reflexivity. Qed.

Lemma slice_in_range (s : pystr) (a b : Z) :
  (0 <= a <= Z.of_nat (length s))%Z -> (0 <= b <= Z.of_nat (length s))%Z ->
  slice s a b = substr s (Z.to_nat a) (Z.to_nat b).
Proof.
  intros Ha Hb. unfold slice. rewrite !clip_in_range by lia. reflexivity.
Qed.

Lemma substr_0 (s : pystr) (n : nat) : substr s 0 n = firstn n s.
Proof. unfold substr. rewrite Nat.sub_0_r. reflexivity. Qed.

Lemma apply_replacements_fold (text : pystr) (reps : list Replacement.t) :
  apply_replacements text reps = fold_left substitute (rev reps) text.
Proof. destruct reps; reflexivity. Qed.

(** Applied from the last one to the first one, the replacements from
    offset [lo] on leave the text before [lo] as it was. *)
Lemma fold_substitute (text : pystr) (reps : list Replacement.t) :
  forall lo,
    (0 <= lo <= Z.of_nat (length text))%Z ->
    well_ordered (Z.of_nat (length text)) lo reps ->
    fold_right (fun r out => substitute out r) text reps
    = slice_to text lo ++ interleave text lo reps.
Proof.
  induction reps as [ | r rest IH]; intros lo Hlo H; simpl.
  - unfold slice_to, slice_from. symmetry. apply firstn_skipn.
  - inversion H as [ | lo' r' rest' H1 H2 H3 H4]; subst.
    rewrite (IH (Replacement.end_ r)) by (lia || assumption).
    set (tail := interleave text (Replacement.end_ r) rest).
    assert (Hlen : length (slice_to text (Replacement.end_ r))
                   = Z.to_nat (Replacement.end_ r)).
    { unfold slice_to. rewrite clip_in_range by lia.
      rewrite length_firstn. lia. }
    unfold substitute. rewrite (app_assoc (slice_to text lo)).
    f_equal; [ | f_equal].
    + rewrite slice_to_firstn by (rewrite length_app, Hlen; lia).
      rewrite firstn_app, Hlen.
      replace (Z.to_nat (Replacement.start r)
               - Z.to_nat (Replacement.end_ r)) with 0 by lia.
      simpl. rewrite app_nil_r.
      rewrite !slice_to_firstn, slice_in_range by lia.
      rewrite firstn_firstn.
      replace (Nat.min (Z.to_nat (Replacement.start r))
                 (Z.to_nat (Replacement.end_ r)))
        with (Z.to_nat (Replacement.start r)) by lia.
      rewrite <- !substr_0.
      apply (substr_split text 0 (Z.to_nat lo)); lia.
    + unfold slice_from at 1.
      rewrite clip_in_range by (rewrite length_app, Hlen; lia).
      rewrite skipn_app, Hlen, Nat.sub_diag.
      rewrite skipn_all2 by lia. reflexivity.
Qed.

(** C6. For every text and every list of replacements ordered by
    ascending start whose spans lie in the text and do not overlap,
    [apply_replacements] applies them from the last one to the first one,
    and the result is the concatenation of the untouched segments of the
    text interleaved, in order, with the decoded strings. *)
Theorem apply_replacements_interleaves (text : pystr)
  (reps : list Replacement.t) :
  well_ordered (Z.of_nat (length text)) 0 reps ->
  apply_replacements text reps = fold_left substitute (rev reps) text
  /\ apply_replacements text reps = interleave text 0 reps.
Proof.
  intro H. split; [apply apply_replacements_fold | ].
  rewrite apply_replacements_fold, <- fold_left_rev_right, rev_involutive.
  rewrite (fold_substitute text reps 0 ltac:(lia) H).
  rewrite slice_to_firstn by lia. reflexivity.
Qed.

End SubstitutionFacts.

Lemma apply_replacements_interleaves_witness :
  let text := pystr_of "ab 41 42 43 cd 44 45 46" in
  let reps := [Replacement.mk 3 12 (pystr_of "41 42 43 ") (pystr_of "ABC ");
               Replacement.mk 15 23 (pystr_of "44 45 46") (pystr_of "DEF")] in
  apply_replacements text reps = pystr_of "ab ABC cd DEF".
Proof.
  intros text reps.
  assert (H : well_ordered (Z.of_nat (length text)) 0 reps)
    by (repeat constructor; simpl; lia).
  destruct (apply_replacements_interleaves text reps H) as [_ ->].
  reflexivity.
Defined.

(** ** Character classes *)

Ltac class_cases :=
  unfold is_hex, is_space, is_word, ascii_isspace, ascii_isword,
    fromhex_space, hex_value, in_range in *;
  repeat match goal with
    | |- context [(?a <=? ?b)%N] => destruct (N.leb_spec a b)
    | |- context [(?a <? ?b)%N] => destruct (N.ltb_spec a b)
    | |- context [(?a =? ?b)%N] => destruct (N.eqb_spec a b)
    | H : context [(?a <=? ?b)%N] |- _ => destruct (N.leb_spec a b)
    | H : context [(?a <? ?b)%N] |- _ => destruct (N.ltb_spec a b)
    | H : context [(?a =? ?b)%N] |- _ => destruct (N.eqb_spec a b)
    end;
  simpl in *; try reflexivity; try discriminate; try lia.

Section ClassFacts.
Context {U : UnicodeDB}.

Lemma hex_is_word (c : char) : is_hex c = true -> is_word c = true.
Proof. intro H. class_cases. Qed.

Lemma hex_not_space (c : char) : is_hex c = true -> is_space c = false.
Proof. intro H. class_cases. Qed.

Lemma space_not_hex (c : char) : is_space c = true -> is_hex c = false.
Proof.
  intro H. destruct (is_hex c) eqn:Hh; [ | reflexivity].
  rewrite (hex_not_space c Hh) in H. discriminate.
Qed.

Lemma hex_not_fromhex_space (c : char) :
  is_hex c = true -> fromhex_space c = false.
Proof. intro H. class_cases. Qed.

Lemma hex_value_some (c : char) :
  is_hex c = true -> exists v, hex_value c = Some v.
Proof. intro H. class_cases; eexists; reflexivity. Qed.

End ClassFacts.

(** ** The tokens of a run *)

Section TokenFacts.
Context {U : UnicodeDB}.

Lemma match_at_token (s : pystr) (p : nat) (h1 h2 : char) :
  at_boundary s p = true ->
  nth_error s p = Some h1 -> is_hex h1 = true ->
  nth_error s (S p) = Some h2 -> is_hex h2 = true ->
  at_boundary s (S (S p)) = true ->
  match_at HEX_TOKEN s p = Some (S (S p)).
Proof.
  intros Hb H1 Hh1 H2 Hh2 Hb'. unfold match_at, HEX_TOKEN. cbn [exec].
  rewrite Hb, H1, Hh1, H2, Hh2, Hb'. reflexivity.
Qed.

Lemma match_at_token_none (s : pystr) (p : nat) :
  match nth_error s p with Some c => is_hex c | None => false end = false ->
  match_at HEX_TOKEN s p = None.
Proof.
  intro H. unfold match_at, HEX_TOKEN. cbn [exec].
  destruct (at_boundary s p); [ | reflexivity].
  destruct (nth_error s p) as [c | ]; [ | reflexivity].
  rewrite H. reflexivity.
Qed.

Lemma matches_token_inv (s : pystr) (i m : nat) :
  matches s HEX_TOKEN i m ->
  exists h1 h2,
    at_boundary s i = true
    /\ nth_error s i = Some h1 /\ is_hex h1 = true
    /\ nth_error s (S i) = Some h2 /\ is_hex h2 = true
    /\ at_boundary s (S (S i)) = true /\ m = S (S i).
Proof.
  unfold HEX_TOKEN. cbn [matches].
  intros (m1 & [Hb ->] & m2 & (h1 & H1 & Hh1 & ->)
                 & m3 & (h2 & H2 & Hh2 & ->) & Hb' & ->).
  exists h1, h2. repeat split; assumption.
Qed.

(** A stretch matched by [\s+] holds whitespace only. *)
Lemma iterate_spaces (s : pystr) (c p m : nat) :
  iterate (matches s (Class is_space)) c p m ->
  m = p + c
  /\ forall q, p <= q < m ->
       exists ch, nth_error s q = Some ch /\ is_space ch = true.
Proof.
  intro H. induction H as [p | c p j m Hpj _ IH].
  - split; [lia | intros q Hq; lia].
  - cbn [matches] in Hpj. destruct Hpj as (ch & Hch & Hsp & ->).
    destruct IH as [-> IH]. split; [lia | ].
    intros q Hq. destruct (Nat.eq_dec q p) as [-> | Hne].
    + exists ch. split; assumption.
    + apply IH. lia.
Qed.

Lemma substr_Forall (P : char -> Prop) (s : pystr) (n p : nat) :
  (forall q, p <= q < p + n ->
     exists ch, nth_error s q = Some ch /\ P ch) ->
  Forall P (substr s p (p + n)).
Proof.
  revert p. induction n as [ | n IH]; intros p H.
  - rewrite Nat.add_0_r, substr_same. constructor.
  - destruct (H p ltac:(lia)) as (ch & Hch & HP).
    rewrite (substr_split s p (S p) (p + S n)) by lia.
    rewrite (substr_single s p ch Hch). simpl. constructor; [exact HP | ].
    replace (p + S n) with (S p + n) by lia. apply IH.
    intros q Hq. apply H. lia.
Qed.

Lemma substr_cons (s : pystr) (p m : nat) (ch : char) :
  p < m -> nth_error s p = Some ch ->
  substr s p m = ch :: substr s (S p) m.
Proof.
  intros Hlt Hch. rewrite (substr_split s p (S p) m) by lia.
  rewrite (substr_single s p ch Hch). reflexivity.
Qed.

Lemma substr_snoc (s : pystr) (p m : nat) (ch : char) :
  p <= m -> nth_error s m = Some ch ->
  substr s p (S m) = substr s p m ++ [ch].
Proof.
  intros Hle Hch. rewrite (substr_split s p m (S m)) by lia.
  rewrite (substr_single s m ch Hch). reflexivity.
Qed.

Lemma word_at_some (s : pystr) (p : nat) (ch : char) :
  nth_error s p = Some ch -> word_at s p = is_word ch.
Proof. intro H. unfold word_at. rewrite H. reflexivity. Qed.

(** After a word character, a boundary is followed by a non-word. *)
Lemma boundary_after_word (s : pystr) (p : nat) :
  at_boundary s (S p) = true -> word_at s p = true ->
  word_at s (S p) = false.
Proof.
  unfold at_boundary. intros Hb Hw. rewrite Hw in Hb.
  destruct (word_at s (S p)); [discriminate | reflexivity].
Qed.

(** Before a word character, a boundary is preceded by a non-word. *)
Lemma boundary_before_word (s : pystr) (p : nat) :
  at_boundary s (S p) = true -> word_at s (S p) = true ->
  word_at s p = false.
Proof.
  unfold at_boundary. intros Hb Hw. rewrite Hw in Hb.
  destruct (word_at s p); [discriminate | reflexivity].
Qed.

(** The separator of an iteration that another iteration follows is
    whitespace: not empty, with a non-word character at each end. *)
Lemma separator_before_token (s : pystr) (p m : nat) (h : char) :
  matches s (Alt (AtLeast 1 (Class is_space)) EndLine) (S (S p)) m ->
  word_at s (S p) = true -> at_boundary s (S (S p)) = true ->
  nth_error s m = Some h -> is_hex h = true -> at_boundary s m = true ->
  S (S p) < m
  /\ substr s (S (S p)) m <> []
  /\ Forall (fun c => is_space c = true) (substr s (S (S p)) m)
  /\ is_word (hd 0%N (substr s (S (S p)) m)) = false
  /\ is_word (last (substr s (S (S p)) m) 0%N) = false.
Proof.
  intros Hsep Hw Hb Hm Hh Hbm. cbn [matches] in Hsep.
  destruct Hsep as [(c & Hc & Hit) | [Hend ->]].
  - apply iterate_spaces in Hit. destruct Hit as [-> Hsp].
    destruct c as [ | c]; [lia | ].
    destruct (Hsp (S (S p)) ltac:(lia)) as (w & Hw1 & Hws1).
    destruct (Hsp (S (S p) + c) ltac:(lia)) as (w' & Hw2 & Hws2).
    split; [lia | ].
    assert (Hhd : substr s (S (S p)) (S (S p) + S c)
                  = w :: substr s (S (S (S p))) (S (S p) + S c))
      by (apply substr_cons; [lia | exact Hw1]).
    assert (Hlast : substr s (S (S p)) (S (S p) + S c)
                    = substr s (S (S p)) (S (S p) + c) ++ [w']).
    { replace (S (S p) + S c) with (S (S (S p) + c)) by lia.
      apply substr_snoc; [lia | exact Hw2]. }
    repeat split.
    + rewrite Hhd. discriminate.
    + apply substr_Forall. exact Hsp.
    + rewrite Hhd. simpl.
      rewrite <- (word_at_some s _ w Hw1).
      apply boundary_after_word; assumption.
    + rewrite Hlast, last_last.
      rewrite <- (word_at_some s _ w' Hw2).
      apply boundary_before_word.
      * replace (S (S (S p) + c)) with (S (S p) + S c) by lia. exact Hbm.
      * replace (S (S (S p) + c)) with (S (S p) + S c) by lia.
        rewrite (word_at_some s _ h Hm). apply hex_is_word. exact Hh.
  - exfalso. unfold at_line_end in Hend. rewrite Hm in Hend.
    apply N.eqb_eq in Hend. subst h. discriminate Hh.
Qed.

(** The separator of the last iteration is whitespace, if anything. *)
Lemma separator_spaces (s : pystr) (p m : nat) :
  matches s (Alt (AtLeast 1 (Class is_space)) EndLine) p m ->
  p <= m /\ Forall (fun c => is_space c = true) (substr s p m).
Proof.
  cbn [matches]. intros [(c & Hc & Hit) | [Hend ->]].
  - apply iterate_spaces in Hit. destruct Hit as [-> Hsp].
    split; [lia | ]. apply substr_Forall. exact Hsp.
  - split; [lia | ]. rewrite substr_same. constructor.
Qed.

(** The shape of what [HEX_RUN] matches: tokens separated by whitespace,
    then whitespace. *)
Lemma run_shape (s : pystr) (c : nat) :
  forall i j,
    iterate (matches s HEX_RUN_body) (S c) i j ->
    exists e tokens,
      i < e <= j
      /\ token_run (substr s i e) tokens
      /\ length tokens = S c
      /\ Forall (fun c => is_space c = true) (substr s e j).
Proof.
  induction c as [ | c IH]; intros i j H;
    inversion H as [ | c' i' m j' Him Hmj]; subst;
    destruct Him as (m1 & Htok & Hsep);
    destruct (matches_token_inv s i m1 Htok)
      as (h1 & h2 & Hb & H1 & Hh1 & H2 & Hh2 & Hb' & ->);
    assert (Htwo : substr s i (S (S i)) = [h1; h2])
      by (rewrite (substr_cons s i (S (S i)) h1 ltac:(lia) H1),
            (substr_single s (S i) h2 H2); reflexivity).
  - inversion Hmj; subst.
    destruct (separator_spaces s _ _ Hsep) as [Hle Hsp].
    exists (S (S i)), [[h1; h2]]. repeat split; try lia.
    + rewrite Htwo. constructor; assumption.
    + exact Hsp.
  - destruct (IH m j Hmj) as (e & tokens & He & Hrun & Hlen & Hsp).
    inversion Hmj as [ | c' i' m2 j' Hnext _]; subst.
    destruct Hnext as (m3 & Htok' & _).
    destruct (matches_token_inv s m m3 Htok')
      as (h & _ & Hbm & Hm & Hh & _).
    destruct (separator_before_token s i m h Hsep
                ltac:(rewrite (word_at_some s _ h2 H2);
                      apply hex_is_word; exact Hh2) Hb' Hm Hh Hbm)
      as (Hlt & Hne & Hws & Hhd & Hlast).
    exists e, ([h1; h2] :: tokens). repeat split; try lia.
    + rewrite (substr_split s i (S (S i)) e) by lia.
      rewrite (substr_split s (S (S i)) m e) by lia.
      rewrite Htwo. simpl. constructor; assumption.
    + simpl. rewrite Hlen. reflexivity.
    + exact Hsp.
Qed.

Lemma token_run_last (body : pystr) (tokens : list pystr) :
  token_run body tokens ->
  exists b h, body = b ++ [h] /\ is_hex h = true.
Proof.
  intro H. induction H as [h1 h2 Hh1 Hh2
                          | h1 h2 ws body tokens Hh1 Hh2 _ _ _ _ _ IH].
  - exists [h1], h2. split; [reflexivity | exact Hh2].
  - destruct IH as (b & h & -> & Hh).
    exists (h1 :: h2 :: ws ++ b), h. split; [ | exact Hh].
    simpl. rewrite <- app_assoc. reflexivity.
Qed.

Lemma token_run_first (body : pystr) (tokens : list pystr) :
  token_run body tokens ->
  exists h rest, body = h :: rest /\ is_hex h = true.
Proof.
  intro H. destruct H; eexists; eexists; split; try reflexivity; assumption.
Qed.

Lemma token_run_tokens (body : pystr) (tokens : list pystr) :
  token_run body tokens -> Forall two_hex_digits tokens.
Proof.
  intro H. induction H; repeat constructor;
    try (exists h1, h2; repeat split; assumption); assumption.
Qed.

Lemma drop_spaces_app (ws s : pystr) :
  Forall (fun c => is_space c = true) ws ->
  drop_spaces (ws ++ s) = drop_spaces s.
Proof.
  intro H. induction H as [ | c ws Hc _ IH]; simpl.
  - reflexivity.
  - rewrite Hc. exact IH.
Qed.

(** Stripping a run leaves its tokens and the whitespace between them. *)
Lemma rstrip_token_run (body ws : pystr) (tokens : list pystr) :
  token_run body tokens ->
  Forall (fun c => is_space c = true) ws ->
  rstrip (body ++ ws) = body.
Proof.
  intros Hrun Hws. destruct (token_run_last body tokens Hrun)
    as (b & h & -> & Hh).
  unfold rstrip. rewrite rev_app_distr.
  rewrite drop_spaces_app by (apply Forall_rev; exact Hws).
  rewrite rev_app_distr. simpl. rewrite (hex_not_space h Hh).
  change (h :: rev b) with (rev [h] ++ rev b).
  rewrite <- rev_app_distr, rev_involutive. reflexivity.
Qed.

End TokenFacts.

(** ** Extracting the tokens again *)

Section FindallFacts.
Context {U : UnicodeDB}.

Lemma nth_error_shift (pre l : pystr) (k : nat) :
  nth_error (pre ++ l) (length pre + k) = nth_error l k.
Proof.
  rewrite nth_error_app2 by lia. f_equal. lia.
Qed.

(** A token that follows [pre] is matched where it stands. *)
Lemma token_after_prefix (pre rest : pystr) (h1 h2 : char) :
  at_boundary (pre ++ h1 :: h2 :: rest) (length pre) = true ->
  is_hex h1 = true -> is_hex h2 = true ->
  match rest with [] => false | w :: _ => is_word w end = false ->
  search HEX_TOKEN (pre ++ h1 :: h2 :: rest) (length pre)
  = Some (length pre, S (S (length pre))).
Proof.
  intros Hb Hh1 Hh2 Hrest.
  set (s := pre ++ h1 :: h2 :: rest) in *.
  assert (H1 : nth_error s (length pre) = Some h1).
  { rewrite <- (Nat.add_0_r (length pre)). apply nth_error_shift. }
  assert (H2 : nth_error s (S (length pre)) = Some h2).
  { replace (S (length pre)) with (length pre + 1) by lia.
    apply nth_error_shift. }
  assert (H3 : nth_error s (S (S (length pre))) = nth_error rest 0).
  { replace (S (S (length pre))) with (length pre + 2) by lia.
    unfold s. rewrite nth_error_shift. reflexivity. }
  apply search_found.
  - split; [lia | ]. unfold s. rewrite length_app. lia.
  - apply (match_at_token s _ h1 h2); try assumption.
    unfold at_boundary. rewrite (word_at_some s _ h2 H2).
    rewrite (hex_is_word h2 Hh2). unfold word_at. rewrite H3.
    destruct rest as [ | w rest']; simpl; [reflexivity | ].
    rewrite Hrest. reflexivity.
  - intros p Hp. lia.
Qed.

Lemma token_substr (pre rest : pystr) (h1 h2 : char) :
  substr (pre ++ h1 :: h2 :: rest) (length pre) (S (S (length pre)))
  = [h1; h2].
Proof.
  replace (S (S (length pre))) with (length pre + 2) by lia.
  rewrite <- (Nat.add_0_r (length pre)) at 1.
  rewrite substr_app_r. reflexivity.
Qed.

(** No token starts in whitespace. *)
Lemma no_token_in_spaces (pre ws rest : pystr) (p : nat) :
  Forall (fun c => is_space c = true) ws ->
  length pre <= p < length pre + length ws ->
  match_at HEX_TOKEN (pre ++ ws ++ rest) p = None.
Proof.
  intros Hws Hp. apply match_at_token_none.
  replace p with (length pre + (p - length pre)) by lia.
  rewrite nth_error_shift, nth_error_app1 by lia.
  destruct (nth_error ws (p - length pre)) as [c | ] eqn:Hc;
    [ | reflexivity].
  apply space_not_hex. rewrite Forall_forall in Hws.
  apply Hws. apply (nth_error_In _ _ Hc).
Qed.

(** The scan of a run gives its tokens back, one by one. *)
Lemma finditer_token_run (body : pystr) (tokens : list pystr) :
  token_run body tokens ->
  forall pre fuel,
    at_boundary (pre ++ body) (length pre) = true ->
    length body < fuel ->
    map (fun m => substr (pre ++ body) (fst m) (snd m))
      (finditer_from HEX_TOKEN (pre ++ body) fuel (length pre))
    = tokens.
Proof.
  intro H.
  induction H as [h1 h2 Hh1 Hh2
                 | h1 h2 ws body tokens Hh1 Hh2 Hne Hws Hhd Hlast Hrun IH];
    intros pre fuel Hb Hfuel;
    (destruct fuel as [ | fuel]; [simpl in Hfuel; lia | ]);
    cbn [finditer_from].
  - rewrite (token_after_prefix pre [] h1 h2 Hb Hh1 Hh2 eq_refl).
    replace (length pre <? S (S (length pre))) with true
      by (symmetry; apply Nat.ltb_lt; lia).
    cbn [map fst snd]. rewrite token_substr. f_equal.
    destruct fuel as [ | fuel]; [reflexivity | ]. cbn [finditer_from].
    replace (search HEX_TOKEN (pre ++ [h1; h2]) (S (S (length pre))))
      with (@None (nat * nat)); [reflexivity | ].
    symmetry. unfold search.
    replace (length (pre ++ [h1; h2])) with (S (S (length pre)))
      by (rewrite length_app; simpl; lia).
    rewrite Nat.leb_refl, Nat.sub_diag. cbn [search_from].
    rewrite match_at_token_none; [reflexivity | ].
    replace (S (S (length pre))) with (length pre + 2) by lia.
    rewrite nth_error_shift. reflexivity.
  - assert (Hrest : match ws ++ body with
                    | [] => false
                    | w :: _ => is_word w
                    end = false).
    { destruct ws as [ | w ws']; [contradiction | exact Hhd]. }
    rewrite (token_after_prefix pre (ws ++ body) h1 h2 Hb Hh1 Hh2 Hrest).
    replace (length pre <? S (S (length pre))) with true
      by (symmetry; apply Nat.ltb_lt; lia).
    cbn [map fst snd]. rewrite token_substr. f_equal.
    set (pre' := pre ++ h1 :: h2 :: ws).
    assert (Hs : pre ++ h1 :: h2 :: ws ++ body = pre' ++ body).
    { unfold pre'. rewrite <- app_assoc. reflexivity. }
    assert (Hlen : length pre' = S (S (length pre)) + length ws).
    { unfold pre'. rewrite length_app. simpl. lia. }
    assert (Hskip : finditer_from HEX_TOKEN (pre ++ h1 :: h2 :: ws ++ body)
                      fuel (S (S (length pre)))
                    = finditer_from HEX_TOKEN (pre ++ h1 :: h2 :: ws ++ body)
                        fuel (length pre')).
    { apply finditer_from_skip.
      - rewrite Hlen. split; [lia | ].
        rewrite !length_app. simpl. rewrite length_app. lia.
      - intros p Hp.
        change (pre ++ h1 :: h2 :: ws ++ body)
          with (pre ++ [h1; h2] ++ ws ++ body).
        rewrite app_assoc. apply no_token_in_spaces; [exact Hws | ].
        rewrite length_app. simpl. lia. }
    rewrite Hskip, Hs. apply IH.
    + destruct (token_run_first body tokens Hrun) as (h & rest & -> & Hh).
      destruct (exists_last Hne) as (ws0 & w & Hw).
      rewrite Hw, last_last in Hlast.
      assert (Hpre : pre' = (pre ++ h1 :: h2 :: ws0) ++ [w]).
      { unfold pre'. rewrite Hw, <- app_assoc. reflexivity. }
      assert (Hlen' : length pre' = S (length (pre ++ h1 :: h2 :: ws0))).
      { rewrite Hpre, length_app. simpl. lia. }
      rewrite Hlen'. unfold at_boundary, word_at.
      rewrite <- Hlen', nth_error_middle.
      rewrite Hpre, <- app_assoc. cbn [app]. rewrite nth_error_middle.
      rewrite Hlast, (hex_is_word h Hh). reflexivity.
    + simpl in Hfuel. rewrite length_app in Hfuel. lia.
Qed.

Lemma findall_token_run (body : pystr) (tokens : list pystr) :
  token_run body tokens -> findall HEX_TOKEN body = tokens.
Proof.
  intro H. unfold findall, finditer.
  apply (finditer_token_run body tokens H [] (S (length body)));
    [ | lia].
  destruct (token_run_first body tokens H) as (h & rest & -> & Hh).
  unfold at_boundary, word_at. simpl. apply hex_is_word. exact Hh.
Qed.

(** [bytes.fromhex] does not fail on tokens put end to end: it gives one
    byte per token. *)
Lemma fromhex_tokens (tokens : list pystr) :
  Forall two_hex_digits tokens ->
  exists bs, fromhex (concat tokens) = Some bs
             /\ length bs = length tokens.
Proof.
  intro H. induction H as [ | t tokens (h1 & h2 & -> & Hh1 & Hh2) _ IH].
  - exists []. split; reflexivity.
  - destruct IH as (bs & Hbs & Hlen).
    destruct (hex_value_some h1 Hh1) as (v1 & Hv1).
    destruct (hex_value_some h2 Hh2) as (v2 & Hv2).
    exists ((v1 * 16 + v2)%N :: bs). simpl.
    rewrite (hex_not_fromhex_space h1 Hh1), Hv1, Hv2, Hbs. simpl.
    rewrite Hlen. split; reflexivity.
Qed.

(** Decoding with replacement gives at least one character as soon as
    there is one byte. *)
Lemma utf8_decode_replace_nonempty (bs : list byte) :
  bs <> [] -> utf8_decode_replace bs <> [].
Proof.
  destruct bs as [ | b0 r0]; [intro H; contradiction | intros _].
  cbn [utf8_decode_replace].
  repeat match goal with
    | |- context [if ?b then _ else _] => destruct b
    | |- context [match ?l with [] => _ | _ :: _ => _ end] => destruct l
    end; discriminate.
Qed.

End FindallFacts.

(** ** Every run is decoded *)

Section DecodingFacts.
Context {U : UnicodeDB}.

Lemma matched_run_tokens (text : pystr) (st en : nat) :
  matches text HEX_RUN st en ->
  3 <= length (tokens_of text (st, en))
  /\ Forall two_hex_digits (tokens_of text (st, en))
  /\ (exists bs, fromhex (concat (tokens_of text (st, en))) = Some bs
                 /\ bs <> [])
  /\ _decode_hex_bytes (tokens_of text (st, en)) <> [].
Proof.
  intros (c & Hc & Hit). destruct c as [ | c]; [lia | ].
  destruct (run_shape text c st en Hit)
    as (e & tokens & He & Hrun & Hlen & Hsp).
  assert (Htok : tokens_of text (st, en) = tokens).
  { unfold tokens_of. cbn [fst snd].
    rewrite (substr_split text st e en) by lia.
    rewrite (rstrip_token_run _ _ tokens Hrun Hsp).
    apply findall_token_run. exact Hrun. }
  rewrite Htok.
  pose proof (token_run_tokens _ _ Hrun) as Htwo.
  destruct (fromhex_tokens tokens Htwo) as (bs & Hbs & Hbl).
  assert (Hne : bs <> []) by (intros ->; simpl in Hbl; lia).
  repeat split.
  - lia.
  - exact Htwo.
  - exists bs. split; assumption.
  - unfold _decode_hex_bytes. rewrite Hbs.
    apply utf8_decode_replace_nonempty. exact Hne.
Qed.

(** A match of the detection pattern holds three tokens or more. *)
Lemma matched_run_shape (text : pystr) (st en : nat) :
  matches text HEX_RUN st en ->
  exists e tokens,
    st < e <= en
    /\ token_run (substr text st e) tokens
    /\ 3 <= length tokens
    /\ Forall (fun c => is_space c = true) (substr text e en).
Proof.
  intros (c & Hc & Hit). destruct c as [ | c]; [lia | ].
  destruct (run_shape text c st en Hit)
    as (e & tokens & He & Hrun & Hlen & Hsp).
  exists e, tokens. repeat split; try assumption; lia.
Qed.

(** A text without three tokens in a row has no match. *)
Lemma no_tokens_no_match (text : pystr) :
  (forall i e tokens,
      token_run (substr text i e) tokens -> length tokens < 3) ->
  forall i j, ~ matches text HEX_RUN i j.
Proof.
  intros Hno i j Hm.
  destruct (matched_run_shape text i j Hm)
    as (e & tokens & _ & Hrun & Hlen & _).
  specialize (Hno i e tokens Hrun). lia.
Qed.

(** C9. For every run that the detection pattern matches, the tokens
    extracted again from the stripped run are three or more, each of two
    hexadecimal digits; [bytes.fromhex] does not fail on them and gives
    bytes, [_decode_hex_bytes] returns a non-empty string, and
    [find_replacements] emits one replacement per matched run. *)
Theorem every_run_is_replaced (text : pystr) :
  Forall (fun m =>
            3 <= length (tokens_of text m)
            /\ Forall two_hex_digits (tokens_of text m)
            /\ (exists bs, fromhex (concat (tokens_of text m)) = Some bs
                           /\ bs <> [])
            /\ _decode_hex_bytes (tokens_of text m) <> [])
    (finditer HEX_RUN text)
  /\ map (fun r => (Replacement.start r, Replacement.end_ r))
       (find_replacements text)
     = map (fun m => (Z.of_nat (fst m), Z.of_nat (snd m)))
         (finditer HEX_RUN text).
Proof.
  rewrite find_replacements_flat_map. unfold finditer.
  pose proof (finditer_from_matches HEX_RUN text (S (length text)) 0) as Hm.
  induction Hm as [ | [st en] ms [Hm _] _ [IH1 IH2]].
  - split; [constructor | reflexivity].
  - pose proof (matched_run_tokens text st en Hm) as Hrun.
    split; [constructor; assumption | ].
    cbn [flat_map]. rewrite map_app, IH2. cbn [map]. f_equal.
    unfold on_match. fold (tokens_of text (st, en)).
    destruct Hrun as (_ & _ & _ & Hd).
    destruct (_decode_hex_bytes (tokens_of text (st, en))) as [ | ch d];
      [contradiction | reflexivity].
Qed.

End DecodingFacts.

(** ** The history store *)

Section HistoryFacts.

(** C10. For every [HistoryEntry] [e], [from_dict(e.to_dict())] is [e],
    field by field. *)
Theorem from_dict_to_dict (e : HistoryEntry.t) :
  HistoryEntry.from_dict (HistoryEntry.to_dict e) = Ok e.
Proof. destruct e. reflexivity. Qed.

Lemma comprehension_to_dict (history : list HistoryEntry.t) :
  comprehension HistoryEntry.from_dict (map HistoryEntry.to_dict history)
  = Ok history.
Proof.
  induction history as [ | e history IH].
  - reflexivity.
  - cbn [map comprehension]. rewrite from_dict_to_dict, IH. reflexivity.
Qed.

Lemma load_disk_with (history : list HistoryEntry.t) :
  load_history (file (disk_with history)) = Ok history.
Proof.
  unfold disk_with. cbn [file].
  unfold load_history, json_load, py_iter, bind, try_except.
  rewrite comprehension_to_dict. reflexivity.
Qed.

(** The three ways of [save_history]: the entries are written, the dump
    raises and leaves the file cut short, the write is refused and the
    file stays as it was. *)
Lemma save_history_written (d : disk) (history : list HistoryEntry.t) :
  writable d = true -> storable history = true ->
  save_history d history = (Ok tt, disk_with history).
Proof.
  intros Hw Hs. unfold save_history, open_w. rewrite Hw.
  cbn [bind_io]. unfold json_dump. fold (storable history). rewrite Hs.
  reflexivity.
Qed.



(** The cases in which [load_history] gives the empty collection. *)
Lemma load_history_empty :
  load_history Missing = Ok []
  /\ load_history Unreadable = Ok []
  /\ load_history NotJSON = Ok [].
Proof. repeat split. Qed.

(** C2 fails on the code. A file that holds the JSON document [42] is
    not the expected collection; [load_history] lets the [TypeError] of
    the iteration through, where the claim has an empty collection and no
    exception. *)
Theorem load_history_raises :
  load_history (Document (PInt 42)) = Raise TypeError
  /\ load_history (Document (PList [PInt 1])) = Raise AttributeError
  /\ load_history NotText = Raise UnicodeDecodeError.
Proof. repeat split. Qed.

Lemma slice_from_last {A} (l : list A) (n : Z) :
  (0 < n < Z.of_nat (length l))%Z ->
  slice_from l (- n) = skipn (length l - Z.to_nat n) l.
Proof.
  intro H. unfold slice_from, clip, adjust_index.
  destruct (Z.ltb_spec (- n) 0); [ | lia]. f_equal. lia.
Qed.

(** C4 fails on the code. A writable store holds 1000 entries and the
    text of the new entry is one lone surrogate: [add_to_history] raises
    the [UnicodeEncodeError] of the dump, which [save_history] does not
    catch, and leaves a file cut short that loads as the empty
    collection, where the claim has 1000 entries, the new one last. *)
Theorem add_to_history_loses_store :
  let d := disk_with full_history in
  load_history (file d) = Ok full_history
  /\ Z.of_nat (length full_history) = MAX_HISTORY_ENTRIES
  /\ add_to_history d (pystr_of "2024-01-03T00:00:00")
       [55296%N] [55296%N] []
     = (Raise UnicodeEncodeError, cut_short)
  /\ load_history (file cut_short) = Ok [].
Proof. vm_compute. repeat split. Qed.




(** C5 fails on the code. A writable store holds an entry with a lone
    surrogate and, after it, the target: [delete_history_entry] finds
    the target, and the save of the other entry raises
    [UnicodeEncodeError] and leaves a file cut short that loads as the
    empty collection, where the claim has [True] returned and the other
    entry untouched. *)
Theorem delete_history_entry_loses_store :
  let s := surrogate_entry "2024-01-01T00:00:00" in
  let t := sample_entry "2024-01-02T00:00:00" in
  let d := disk_with [s; t] in
  load_history (file d) = Ok [s; t]
  /\ first_match t [s; t] 0 = Some 1
  /\ delete_history_entry d t = (Raise UnicodeEncodeError, cut_short)
  /\ load_history (file cut_short) = Ok [].
Proof. vm_compute. repeat split. Qed.

End HistoryFacts.

(** ** The theorems at work *)

(** The concrete cases of the specification. *)

Example decode_hello_world :
  let text := pystr_of "48 65 6C 6C 6F 20 57 6F 72 6C 64" in
  decode_text (U := ascii_db) text
  = DecodeResult.mk text (pystr_of "Hello World")
      [Replacement.mk 0 32 text (pystr_of "Hello World")] 1.
Proof. vm_compute. reflexivity. Qed.

Example decode_two_runs :
  let text := pystr_of "48 65 6C 6C 6F and then FF FF FF junk" in
  let r := decode_text (U := ascii_db) text in
  DecodeResult.decoded r
  = pystr_of "Hello and then "
    ++ [REPLACEMENT_CHARACTER; REPLACEMENT_CHARACTER; REPLACEMENT_CHARACTER]
    ++ pystr_of " junk"
  /\ map (fun r => (Replacement.start r, Replacement.end_ r))
       (DecodeResult.replacements r)
     = [(0, 15); (24, 33)]%Z.
Proof. vm_compute. split; reflexivity. Qed.

Example decode_word_glued_to_run :
  let text := pystr_of "x41 42 43 44y" in
  DecodeResult.replacements (decode_text (U := ascii_db) text) = [].
Proof. vm_compute. reflexivity. Qed.

Example decode_utf8_sequence :
  let text := pystr_of "E2 82 AC E2 82" in
  DecodeResult.decoded (decode_text (U := ascii_db) text)
  = [8364%N; REPLACEMENT_CHARACTER].
Proof. vm_compute. reflexivity. Qed.

(** * Further properties *)

(** ** Detection and substitution together *)

Section CompositionFacts.
Context {U : UnicodeDB}.

Lemma find_replacements_well_ordered (text : pystr) :
  well_ordered (Z.of_nat (length text)) 0 (find_replacements text).
Proof.
  rewrite find_replacements_flat_map.
  apply (chain_well_ordered text (finditer HEX_RUN text) 0).
  apply finditer_from_chain. apply consuming_HEX_RUN.
Qed.

(** X1. For every text, the decoded text of [decode_text] is the text
    outside the replacements, kept as it is and in place, with the
    decoded string of each replacement where its run was. *)
Theorem decode_text_interleaves (text : pystr) :
  DecodeResult.decoded (decode_text text)
  = interleave text 0 (find_replacements text).
Proof.
  unfold decode_text. cbn [DecodeResult.decoded].
  rewrite apply_replacements_fold, <- fold_left_rev_right, rev_involutive.
  rewrite (fold_substitute text _ 0 ltac:(lia)
             (find_replacements_well_ordered text)).
  rewrite slice_to_firstn by lia. reflexivity.
Qed.

(** The scan reports spans at which the engine matched. *)
Lemma finditer_from_match_at (r : regex) (s : pystr) :
  forall fuel pos,
    Forall (fun m => match_at r s (fst m) = Some (snd m)
                     /\ fst m <= length s)
      (finditer_from r s fuel pos).
Proof.
  intro fuel. induction fuel as [ | fuel IH]; intro pos; simpl.
  - constructor.
  - destruct (search r s pos) as [[st en] | ] eqn:Hs; [ | constructor].
    apply search_some in Hs. destruct Hs as (Hle & Hm & _).
    constructor; [ | apply IH]. simpl. split; [exact Hm | lia].
Qed.

(** What holds of what each match gives holds of every replacement. *)
Lemma find_replacements_forall (text : pystr) (P : Replacement.t -> Prop) :
  (forall st en,
      match_at HEX_RUN text st = Some en -> st <= length text ->
      Forall P (on_match text [] (st, en))) ->
  Forall P (find_replacements text).
Proof.
  intro H. rewrite find_replacements_flat_map. unfold finditer.
  pose proof (finditer_from_match_at HEX_RUN text (S (length text)) 0)
    as Hm.
  induction Hm as [ | [st en] ms [Hm Hst] _ IH]; cbn [flat_map].
  - constructor.
  - apply Forall_app. split; [ | exact IH]. apply H; assumption.
Qed.

(** X2. When the detection pattern matches somewhere in the text,
    [find_replacements] returns a replacement, and the first one starts
    at that place or before it: the leftmost run is never missed. *)
Theorem first_replacement_is_leftmost (text : pystr) (i j : nat) :
  matches text HEX_RUN i j ->
  exists r rest,
    find_replacements text = r :: rest
    /\ (Replacement.start r <= Z.of_nat i)%Z.
Proof.
  intro Hm.
  pose proof (consuming_start text HEX_RUN consuming_HEX_RUN i j Hm) as Hi.
  destruct (match_at_complete HEX_RUN text i j progressing_HEX_RUN
              ltac:(lia) Hm) as (e & He).
  rewrite find_replacements_flat_map. unfold finditer.
  cbn [finditer_from].
  destruct (search HEX_RUN text 0) as [[st en] | ] eqn:Hs.
  - apply search_some in Hs. destruct Hs as (_ & Hst & Hnone).
    assert (Hle : st <= i).
    { destruct (Nat.le_gt_cases st i) as [Hle | Hgt]; [exact Hle | ].
      rewrite (Hnone i) in He by lia. discriminate. }
    cbn [flat_map].
    pose proof (matched_run_tokens text st en (match_at_sound _ _ _ _ Hst))
      as (_ & _ & _ & Hd).
    unfold on_match at 1. fold (tokens_of text (st, en)).
    destruct (_decode_hex_bytes (tokens_of text (st, en))) as [ | c d];
      [contradiction | ].
    cbn [app fst snd]. eexists. eexists. split; [reflexivity | ].
    cbn [Replacement.start]. lia.
  - rewrite (search_none _ _ _ Hs i) in He by lia. discriminate.
Qed.

End CompositionFacts.

(** ** Lengths *)

Section LengthFacts.
Context {U : UnicodeDB}.

Lemma token_run_length (body : pystr) (tokens : list pystr) :
  token_run body tokens -> 3 * length tokens <= S (length body).
Proof.
  intro H. induction H as [h1 h2 Hh1 Hh2
                          | h1 h2 ws body tokens Hh1 Hh2 Hne _ _ _ _ IH].
  - simpl. lia.
  - destruct ws as [ | w ws]; [contradiction | ].
    cbn [length app] in *. rewrite length_app. lia.
Qed.

(** Decoding with replacement gives at most one character per byte. *)
Lemma utf8_decode_replace_length (bs : list byte) :
  length (utf8_decode_replace bs) <= length bs.
Proof.
  assert (H : forall n (l : list byte),
             length l <= n -> length (utf8_decode_replace l) <= length l).
  { intro n. induction n as [ | n IH]; intros l Hl.
    - destruct l; [apply Nat.le_refl | simpl in Hl; lia].
    - destruct l as [ | b0 r0]; [apply Nat.le_refl | ].
      cbn [utf8_decode_replace].
      repeat match goal with
        | |- context [if ?b then _ else _] => destruct b
        | |- context [match ?l with [] => _ | _ :: _ => _ end] =>
            destruct l
        end;
        cbn [length] in *;
        repeat match goal with
          | |- context [length (utf8_decode_replace ?r)] =>
              lazymatch goal with
              | _ : length (utf8_decode_replace r) <= length r |- _ => fail
              | _ => pose proof (IH r ltac:(cbn [length]; lia))
              end
          end;
        cbn [length] in *; lia. }
  apply (H (length bs)). apply Nat.le_refl.
Qed.

(** The decoded string of a match is shorter than the match by five
    characters or more: three tokens and two separators make eight
    characters, and decode to three characters at most. *)
Lemma on_match_shorter (text : pystr) (st en : nat) :
  match_at HEX_RUN text st = Some en -> st <= length text ->
  Forall (fun r =>
            (Z.of_nat (length (Replacement.decoded r)) + 5
             <= Replacement.end_ r - Replacement.start r)%Z)
    (on_match text [] (st, en)).
Proof.
  intros Hm Hst. apply match_at_sound in Hm.
  pose proof (matches_bound text HEX_RUN st en Hm Hst) as Hen.
  destruct (matched_run_shape text st en Hm)
    as (e & tokens & He & Hrun & Hlen & Hsp).
  assert (Hsplit : substr text st en
                   = substr text st e ++ substr text e en)
    by (apply substr_split; lia).
  pose proof (length_substr text st e ltac:(lia)) as Hlb.
  pose proof (length_substr text e en Hen) as Hlw.
  pose proof (token_run_length _ _ Hrun) as Htl.
  unfold on_match. cbn [fst snd]. rewrite trailing_ws_skipn, Hsplit.
  rewrite (rstrip_token_run _ _ tokens Hrun Hsp).
  rewrite (findall_token_run _ _ Hrun).
  rewrite skipn_app, skipn_all, Nat.sub_diag. cbn [skipn app].
  destruct (fromhex_tokens tokens (token_run_tokens _ _ Hrun))
    as (bs & Hbs & Hbl).
  unfold _decode_hex_bytes. rewrite Hbs.
  pose proof (utf8_decode_replace_length bs) as Hu.
  destruct (utf8_decode_replace bs) as [ | c d]; constructor;
    [ | constructor].
  cbn [Replacement.decoded Replacement.start Replacement.end_].
  rewrite length_app. cbn [length] in *. lia.
Qed.

Lemma slice_from_length (s : pystr) (lo : Z) :
  (0 <= lo <= Z.of_nat (length s))%Z ->
  Z.of_nat (length (slice_from s lo)) = (Z.of_nat (length s) - lo)%Z.
Proof.
  intro H. unfold slice_from. rewrite clip_in_range by lia.
  rewrite length_skipn. lia.
Qed.

Lemma slice_length (s : pystr) (a b : Z) :
  (0 <= a <= b)%Z -> (b <= Z.of_nat (length s))%Z ->
  Z.of_nat (length (slice s a b)) = (b - a)%Z.
Proof.
  intros Ha Hb. rewrite slice_in_range by lia.
  rewrite length_substr by lia. lia.
Qed.

Lemma interleave_length (text : pystr) (reps : list Replacement.t) :
  forall lo,
    (0 <= lo <= Z.of_nat (length text))%Z ->
    well_ordered (Z.of_nat (length text)) lo reps ->
    Forall (fun r =>
              (Z.of_nat (length (Replacement.decoded r)) + 5
               <= Replacement.end_ r - Replacement.start r)%Z) reps ->
    (Z.of_nat (length (interleave text lo reps))
     + 5 * Z.of_nat (length reps)
     <= Z.of_nat (length text) - lo)%Z.
Proof.
  induction reps as [ | r rest IH]; intros lo Hlo Hwo Hsh;
    cbn [interleave].
  - rewrite slice_from_length by lia. simpl. lia.
  - inversion Hwo as [ | lo' r' rest' H1 H2 H3 H4]; subst.
    inversion Hsh as [ | r' rest' Hr Hrest]; subst.
    specialize (IH (Replacement.end_ r) ltac:(lia) H4 Hrest).
    rewrite !length_app, !Nat2Z.inj_add.
    rewrite slice_length by lia.
    cbn [length]. lia.
Qed.

(** X3. Decoding never makes a text longer: the decoded text of
    [decode_text] is shorter than the text by five characters or more
    for each replacement. *)
Theorem decode_text_shortens (text : pystr) :
  (Z.of_nat (length (DecodeResult.decoded (decode_text text)))
   + 5 * DecodeResult.num_replacements (decode_text text)
   <= Z.of_nat (length text))%Z.
Proof.
  unfold decode_text.
  cbn [DecodeResult.decoded DecodeResult.num_replacements].
  rewrite apply_replacements_fold, <- fold_left_rev_right, rev_involutive.
  rewrite (fold_substitute text _ 0 ltac:(lia)
             (find_replacements_well_ordered text)).
  rewrite slice_to_firstn by lia. cbn [Z.to_nat firstn app].
  pose proof (interleave_length text (find_replacements text) 0
                ltac:(lia) (find_replacements_well_ordered text)
                (find_replacements_forall text _ (on_match_shorter text)))
    as H.
  lia.
Qed.

End LengthFacts.

(** ** The greedy loop *)

Section GreedyFacts.
Context {U : UnicodeDB}.

(** Once the minimum is reached, the loop succeeds where its
    continuation does. *)
Lemma repeat_greedy_min
  (body : (nat -> option nat) -> nat -> option nat) (n : nat)
  (k : nat -> option nat) (fuel count i : nat) :
  n <= count -> k i <> None ->
  repeat_greedy body n k fuel count i <> None.
Proof.
  intros Hn Hk. apply Nat.leb_le in Hn.
  destruct fuel as [ | fuel]; cbn [repeat_greedy]; rewrite Hn.
  - exact Hk.
  - destruct (body _ i); [discriminate | exact Hk].
Qed.

Lemma exec_class(s : pystr) (P : char -> bool) (k : nat -> option nat)
  (i : nat) :
  exec (Class P) s k i
  = match nth_error s i with
    | Some c => if P c then k (S i) else None
    | None => None
    end.
Proof. reflexivity. Qed.

Lemma exec_alt (s : pystr) (r1 r2 : regex) (k : nat -> option nat)
  (i : nat) :
  exec (Alt r1 r2) s k i
  = match exec r1 s k i with
    | Some e => Some e
    | None => exec r2 s k i
    end.
Proof. reflexivity. Qed.

Lemma exec_endline (s : pystr) (k : nat -> option nat) (i : nat) :
  exec EndLine s k i = if at_line_end s i then k i else None.
Proof. reflexivity. Qed.

(** With a continuation that succeeds wherever it is called, the loop
    over one class of characters takes all of them. *)
Lemma class_loop_maximal (s : pystr) (P : char -> bool) (n : nat)
  (k : nat -> option nat) :
  forall fuel count p e,
    n <= S count ->
    (forall j, p < j -> k j <> None) ->
    p <= length s ->
    length s - p < fuel ->
    repeat_greedy (exec (Class P) s) n k fuel count p = Some e ->
    exists j, k j = Some e /\ p <= j <= length s /\ class_ends P s j.
Proof.
  intro fuel. induction fuel as [ | fuel IH];
    intros count p e Hn Hk Hp Hfuel H; [lia | ].
  cbn [repeat_greedy] in H. rewrite exec_class in H. cbv beta in H.
  assert (Hstop : (if n <=? count then k p else None) = Some e ->
                  class_ends P s p ->
                  exists j, k j = Some e /\ p <= j <= length s
                            /\ class_ends P s j).
  { intros Hs Hq. destruct (n <=? count); [ | discriminate].
    exists p. repeat split; [exact Hs | lia | exact Hp | exact Hq]. }
  destruct (nth_error s p) as [c | ] eqn:Hc.
  - destruct (P c) eqn:HP.
    + assert (Hlt : p < length s)
        by (apply nth_error_Some; rewrite Hc; discriminate).
      replace (p <? S p) with true in H
        by (symmetry; apply Nat.ltb_lt; lia).
      cbv beta iota in H.
      destruct (repeat_greedy (exec (Class P) s) n k fuel (S count) (S p))
        as [e' | ] eqn:Hloop.
      * injection H as ->.
        destruct (IH (S count) (S p) e ltac:(lia)
                    ltac:(intros j Hj; apply Hk; lia) ltac:(lia)
                    ltac:(lia) Hloop)
          as (j & Hj & Hle & Hend).
        exists j. repeat split; [exact Hj | lia | lia | exact Hend].
      * exfalso.
        apply (repeat_greedy_min (exec (Class P) s) n k fuel (S count)
                 (S p) Hn (Hk (S p) ltac:(lia)) Hloop).
    + apply Hstop; [exact H | ]. unfold class_ends. rewrite Hc. exact HP.
  - apply Hstop; [exact H | ]. unfold class_ends. rewrite Hc. exact I.
Qed.

Lemma newline_is_space : is_space 10%N = true.
Proof. reflexivity. Qed.

(** The loop of [HEX_RUN] stops where it entered, the minimum being
    reached, or after a run that no whitespace follows. *)
Lemma run_loop_ends (s : pystr) :
  forall fuel count i e,
    i <= length s ->
    repeat_greedy (exec HEX_RUN_body s) 3 Some fuel count i = Some e ->
    (3 <= count /\ e = i) \/ (i < e /\ class_ends is_space s e).
Proof.
  intro fuel. induction fuel as [ | fuel IH]; intros count i e Hi H;
    cbn [repeat_greedy] in H.
  - destruct (Nat.leb_spec 3 count); [ | discriminate].
    injection H as <-. left. split; [assumption | reflexivity].
  - match type of H with
    | match exec _ _ ?K0 _ with _ => _ end = _ => set (K := K0) in *
    end.
    destruct (exec HEX_RUN_body s K i) as [e0 | ] eqn:Hb.
    + injection H as ->. right.
      change (exec HEX_TOKEN s
                (exec (Alt (AtLeast 1 (Class is_space)) EndLine) s K) i
              = Some e) in Hb.
      apply exec_sound in Hb. destruct Hb as (p & Htok & Hsep).
      destruct (matches_token_inv s i p Htok)
        as (h1 & h2 & _ & _ & _ & H2 & _ & _ & ->).
      assert (Hp : S (S i) <= length s).
      { apply Nat.le_succ_l. apply nth_error_Some. rewrite H2.
        discriminate. }
      assert (HK : forall j, i < j -> K j
                                     = repeat_greedy (exec HEX_RUN_body s)
                                         3 Some fuel (S count) j).
      { intros j Hj. unfold K. apply Nat.ltb_lt in Hj. rewrite Hj.
        reflexivity. }
      assert (Hafter : forall j,
                 S (S i) <= j -> j <= length s -> K j = Some e ->
                 (3 <= S count -> class_ends is_space s j) ->
                 i < e /\ class_ends is_space s e).
      { intros j Hj Hjl Hkj Hend. rewrite HK in Hkj by lia.
        destruct (IH (S count) j e Hjl Hkj) as [[Hc ->] | [Hlt Hq]].
        - split; [lia | apply Hend; exact Hc].
        - split; [lia | exact Hq]. }
      assert (Htotal : 3 <= S count ->
                       forall j, S (S i) <= j -> K j <> None).
      { intros Hc j Hj. rewrite HK by lia.
        apply repeat_greedy_min; [exact Hc | discriminate]. }
      rewrite exec_alt in Hsep.
      destruct (exec (AtLeast 1 (Class is_space)) s K (S (S i)))
        as [e1 | ] eqn:Hws.
      * injection Hsep as ->.
        destruct (Nat.le_gt_cases 3 (S count)) as [Hc | Hc].
        -- change (repeat_greedy (exec (Class is_space) s) 1 K
                     (S (length s - S (S i))) 0 (S (S i)) = Some e) in Hws.
           destruct (class_loop_maximal s is_space 1 K
                       (S (length s - S (S i))) 0 (S (S i)) e
                       ltac:(lia)
                       ltac:(intros j Hj; apply (Htotal Hc); lia)
                       Hp ltac:(lia) Hws)
             as (j & Hkj & [Hle Hjl] & Hend).
           apply (Hafter j Hle Hjl Hkj). intros _. exact Hend.
        -- apply exec_sound in Hws. destruct Hws as (j & Hm' & Hk').
           apply (Hafter j (matches_le s _ _ _ Hm')
                    (matches_bound s _ _ _ Hm' Hp) Hk').
           intro Hc'. lia.
      * rewrite exec_endline in Hsep.
        destruct (at_line_end s (S (S i))) eqn:Hend; [ | discriminate].
        apply (Hafter (S (S i)) (Nat.le_refl _) Hp Hsep). intro Hc.
        unfold class_ends. unfold at_line_end in Hend.
        destruct (nth_error s (S (S i))) as [c | ] eqn:Hch; [ | exact I].
        apply N.eqb_eq in Hend. subst c. exfalso.
        assert (Hm' : matches s (AtLeast 1 (Class is_space))
                        (S (S i)) (S (S (S i)))).
        { exists 1. split; [lia | ].
          apply (iterate_S _ 0 _ (S (S (S i)))); [ | constructor].
          exists 10%N.
          split; [exact Hch | split; [exact newline_is_space | reflexivity]]. }
        pose proof (exec_complete s (AtLeast 1 (Class is_space)) eq_refl
                      K (S (S i)) Hp Hws _ Hm') as Hnone.
        apply (Htotal Hc (S (S (S i))) ltac:(lia) Hnone).
    + destruct (Nat.leb_spec 3 count); [ | discriminate].
      injection H as <-. left. split; [assumption | reflexivity].
Qed.

Lemma match_at_run_end (text : pystr) (st en : nat) :
  match_at HEX_RUN text st = Some en -> st <= length text ->
  class_ends is_space text en.
Proof.
  intros Hm Hst.
  change (repeat_greedy (exec HEX_RUN_body text) 3 Some
            (S (length text - st)) 0 st = Some en) in Hm.
  destruct (run_loop_ends text _ _ _ _ Hst Hm) as [[Hc _] | [_ Hend]].
  - lia.
  - exact Hend.
Qed.

Lemma match_at_run_start (text : pystr) (st en : nat) :
  match_at HEX_RUN text st = Some en ->
  match st with 0 => True | S p => word_at text p = false end.
Proof.
  intro Hm. apply match_at_sound in Hm. destruct Hm as (c & Hc & Hit).
  inversion Hit as [ | c' i' m j' Him Hmj]; subst; [lia | ].
  destruct Him as (m1 & Htok & _).
  destruct (matches_token_inv text st m1 Htok)
    as (h1 & h2 & Hb & H1 & Hh1 & _).
  destruct st as [ | p]; [exact I | ].
  apply boundary_before_word; [exact Hb | ].
  rewrite (word_at_some text _ h1 H1). apply hex_is_word. exact Hh1.
Qed.

(** X4. The run of a replacement is delimited: the character before
    [start], if any, is not a word character, and the character at
    [end], if any, is not whitespace; the run takes all the whitespace
    that follows its last token. *)
Theorem replacement_run_is_delimited (text : pystr) :
  Forall (fun r =>
            exists st en,
              Replacement.start r = Z.of_nat st
              /\ Replacement.end_ r = Z.of_nat en
              /\ match st with
                 | 0 => True
                 | S p => word_at text p = false
                 end
              /\ class_ends is_space text en)
    (find_replacements text).
Proof.
  apply find_replacements_forall. intros st en Hm Hst.
  destruct (on_match_cases text (st, en)) as [-> | (d & ->)];
    constructor; [ | constructor].
  exists st, en. cbn [Replacement.start Replacement.end_ fst snd].
  repeat split.
  - apply (match_at_run_start text st en Hm).
  - apply (match_at_run_end text st en Hm Hst).
Qed.

End GreedyFacts.

(** ** The figures derived from a result *)

Section FigureFacts.
Context {U : UnicodeDB}.

Lemma py_sum_cons (x : Z) (l : list Z) :
  py_sum (x :: l) = (x + py_sum l)%Z.
Proof.
  unfold py_sum. cbn [fold_left].
  assert (H : forall (l : list Z) (a : Z),
             fold_left Z.add l a = (a + fold_left Z.add l 0)%Z).
  { clear. intro l. induction l as [ | y l IH]; intro a; cbn [fold_left].
    - lia.
    - rewrite (IH (a + y)%Z), (IH (0 + y)%Z). lia. }
  rewrite (H l (0 + x)%Z). lia.
Qed.

Lemma py_sum_app (l1 l2 : list Z) :
  py_sum (l1 ++ l2) = (py_sum l1 + py_sum l2)%Z.
Proof.
  induction l1 as [ | x l1 IH]; cbn [app].
  - reflexivity.
  - rewrite !py_sum_cons, IH. lia.
Qed.

(** The shape of a match, with the boundary after its last token. *)
Lemma run_shape_boundary (s : pystr) (c : nat) :
  forall i j,
    iterate (matches s HEX_RUN_body) (S c) i j ->
    exists e tokens,
      i < e <= j
      /\ token_run (substr s i e) tokens
      /\ length tokens = S c
      /\ Forall (fun c => is_space c = true) (substr s e j)
      /\ at_boundary s e = true
      /\ word_at s (pred e) = true.
Proof.
  induction c as [ | c IH]; intros i j H;
    inversion H as [ | c' i' m j' Him Hmj]; subst;
    destruct Him as (m1 & Htok & Hsep);
    destruct (matches_token_inv s i m1 Htok)
      as (h1 & h2 & Hb & H1 & Hh1 & H2 & Hh2 & Hb' & ->);
    assert (Htwo : substr s i (S (S i)) = [h1; h2])
      by (rewrite (substr_cons s i (S (S i)) h1 ltac:(lia) H1),
            (substr_single s (S i) h2 H2); reflexivity).
  - inversion Hmj; subst.
    destruct (separator_spaces s _ _ Hsep) as [Hle Hsp].
    exists (S (S i)), [[h1; h2]]. repeat split; try lia.
    + rewrite Htwo. constructor; assumption.
    + exact Hsp.
    + exact Hb'.
    + cbn [pred]. rewrite (word_at_some s _ h2 H2).
      apply hex_is_word. exact Hh2.
  - destruct (IH m j Hmj)
      as (e & tokens & He & Hrun & Hlen & Hsp & Hbe & Hwe).
    inversion Hmj as [ | c' i' m2 j' Hnext _]; subst.
    destruct Hnext as (m3 & Htok' & _).
    destruct (matches_token_inv s m m3 Htok')
      as (h & _ & Hbm & Hm & Hh & _).
    destruct (separator_before_token s i m h Hsep
                ltac:(rewrite (word_at_some s _ h2 H2);
                      apply hex_is_word; exact Hh2) Hb' Hm Hh Hbm)
      as (Hlt & Hne & Hws & Hhd & Hlast).
    exists e, ([h1; h2] :: tokens). repeat split; try lia.
    + rewrite (substr_split s i (S (S i)) e) by lia.
      rewrite (substr_split s (S (S i)) m e) by lia.
      rewrite Htwo. simpl. constructor; assumption.
    + simpl. rewrite Hlen. reflexivity.
    + exact Hsp.
    + exact Hbe.
    + exact Hwe.
Qed.

Lemma finditer_from_end (s : pystr) (fuel : nat) :
  finditer_from HEX_TOKEN s fuel (length s) = [].
Proof.
  destruct fuel as [ | fuel]; [reflexivity | ]. cbn [finditer_from].
  unfold search. rewrite Nat.leb_refl, Nat.sub_diag. cbn [search_from].
  rewrite match_at_token_none; [reflexivity | ].
  replace (nth_error s (length s)) with (@None char); [reflexivity | ].
  symmetry. apply nth_error_None. apply Nat.le_refl.
Qed.

(** Whitespace to the end of the string holds no token. *)
Lemma finditer_spaces_to_end (pre ws : pystr) (fuel : nat) :
  Forall (fun c => is_space c = true) ws ->
  finditer_from HEX_TOKEN (pre ++ ws) fuel (length pre) = [].
Proof.
  intro Hws.
  rewrite (finditer_from_skip HEX_TOKEN (pre ++ ws) fuel (length pre)
             (length (pre ++ ws))).
  - apply finditer_from_end.
  - rewrite length_app. lia.
  - intros p Hp. rewrite length_app in Hp.
    rewrite <- (app_nil_r ws). apply no_token_in_spaces; [exact Hws | lia].
Qed.

(** The scan of a run that whitespace follows gives the tokens of the
    run. *)
Lemma finditer_token_run_suffix (body : pystr) (tokens : list pystr) :
  token_run body tokens ->
  forall pre suf fuel,
    at_boundary (pre ++ body ++ suf) (length pre) = true ->
    Forall (fun c => is_space c = true) suf ->
    match suf with [] => false | w :: _ => is_word w end = false ->
    length body < fuel ->
    map (fun m => substr (pre ++ body ++ suf) (fst m) (snd m))
      (finditer_from HEX_TOKEN (pre ++ body ++ suf) fuel (length pre))
    = tokens.
Proof.
  intro H.
  induction H as [h1 h2 Hh1 Hh2
                 | h1 h2 ws body tokens Hh1 Hh2 Hne Hws Hhd Hlast Hrun IH];
    intros pre suf fuel Hb Hsuf Hsufw Hfuel;
    (destruct fuel as [ | fuel]; [simpl in Hfuel; lia | ]);
    cbn [finditer_from].
  - cbn [app] in *.
    rewrite (token_after_prefix pre suf h1 h2 Hb Hh1 Hh2 Hsufw).
    replace (length pre <? S (S (length pre))) with true
      by (symmetry; apply Nat.ltb_lt; lia).
    cbn [map fst snd]. rewrite token_substr. f_equal.
    change (pre ++ h1 :: h2 :: suf) with (pre ++ [h1; h2] ++ suf).
    rewrite app_assoc.
    replace (S (S (length pre))) with (length (pre ++ [h1; h2]))
      by (rewrite length_app; simpl; lia).
    rewrite finditer_spaces_to_end by exact Hsuf. reflexivity.
  - assert (Hrest : match ws ++ body ++ suf with
                    | [] => false
                    | w :: _ => is_word w
                    end = false).
    { destruct ws as [ | w ws']; [contradiction | exact Hhd]. }
    assert (Hs0 : pre ++ (h1 :: h2 :: ws ++ body) ++ suf
                  = pre ++ h1 :: h2 :: ws ++ body ++ suf).
    { cbn [app]. rewrite <- app_assoc. reflexivity. }
    rewrite Hs0 in *.
    rewrite (token_after_prefix pre (ws ++ body ++ suf) h1 h2 Hb Hh1 Hh2
               Hrest).
    replace (length pre <? S (S (length pre))) with true
      by (symmetry; apply Nat.ltb_lt; lia).
    cbn [map fst snd]. rewrite token_substr. f_equal.
    set (pre' := pre ++ h1 :: h2 :: ws).
    assert (Hs : pre ++ h1 :: h2 :: ws ++ body ++ suf
                 = pre' ++ body ++ suf).
    { unfold pre'. rewrite <- app_assoc. reflexivity. }
    assert (Hlen : length pre' = S (S (length pre)) + length ws).
    { unfold pre'. rewrite length_app. simpl. lia. }
    assert (Hskip : finditer_from HEX_TOKEN
                      (pre ++ h1 :: h2 :: ws ++ body ++ suf)
                      fuel (S (S (length pre)))
                    = finditer_from HEX_TOKEN
                        (pre ++ h1 :: h2 :: ws ++ body ++ suf)
                        fuel (length pre')).
    { apply finditer_from_skip.
      - rewrite Hlen. split; [lia | ].
        rewrite !length_app. simpl. rewrite !length_app. lia.
      - intros p Hp.
        change (pre ++ h1 :: h2 :: ws ++ body ++ suf)
          with (pre ++ [h1; h2] ++ ws ++ body ++ suf).
        rewrite app_assoc. apply no_token_in_spaces; [exact Hws | ].
        rewrite length_app. simpl. lia. }
    rewrite Hskip, Hs. apply IH.
    + destruct (token_run_first body tokens Hrun) as (h & rest & -> & Hh).
      destruct (exists_last Hne) as (ws0 & w & Hw).
      rewrite Hw, last_last in Hlast.
      assert (Hpre : pre' = (pre ++ h1 :: h2 :: ws0) ++ [w]).
      { unfold pre'. rewrite Hw, <- app_assoc. reflexivity. }
      assert (Hlen' : length pre' = S (length (pre ++ h1 :: h2 :: ws0))).
      { rewrite Hpre, length_app. simpl. lia. }
      rewrite Hlen'. unfold at_boundary, word_at.
      cbn [app]. rewrite <- Hlen', nth_error_middle.
      rewrite Hpre, <- app_assoc. cbn [app]. rewrite nth_error_middle.
      rewrite Hlast, (hex_is_word h Hh). reflexivity.
    + exact Hsuf.
    + exact Hsufw.
    + simpl in Hfuel. rewrite length_app in Hfuel. lia.
Qed.

(** In a matched run, the tokens that the token pattern finds are those
    of the stripped run: the whitespace at the end hides none and adds
    none. *)
Lemma findall_matched_run (text : pystr) (st en : nat) :
  matches text HEX_RUN st en ->
  findall HEX_TOKEN (substr text st en) = tokens_of text (st, en)
  /\ 3 <= length (tokens_of text (st, en)).
Proof.
  intros (c & Hc & Hit). destruct c as [ | c]; [lia | ].
  destruct (run_shape_boundary text c st en Hit)
    as (e & tokens & He & Hrun & Hlen & Hsp & Hbe & Hwe).
  assert (Hsplit : substr text st en
                   = substr text st e ++ substr text e en)
    by (apply substr_split; lia).
  assert (Htok : tokens_of text (st, en) = tokens).
  { unfold tokens_of. cbn [fst snd]. rewrite Hsplit.
    rewrite (rstrip_token_run _ _ tokens Hrun Hsp).
    apply findall_token_run. exact Hrun. }
  rewrite Htok. split; [ | lia].
  rewrite Hsplit. unfold findall, finditer.
  apply (finditer_token_run_suffix _ _ Hrun []
           (substr text e en) (S (length (substr text st e
                                          ++ substr text e en)))).
  - destruct (token_run_first _ _ Hrun) as (h & rest & Hbody & Hh).
    rewrite Hbody. unfold at_boundary, word_at. simpl.
    apply hex_is_word. exact Hh.
  - exact Hsp.
  - destruct (substr text e en) as [ | w rest] eqn:Hw; [reflexivity | ].
    assert (Hlt : e < en).
    { destruct (Nat.eq_dec e en) as [-> | Hne];
        [rewrite substr_same in Hw; discriminate | lia]. }
    assert (Hnth : nth_error text e = Some w).
    { destruct (nth_error text e) as [w' | ] eqn:Hw'.
      - rewrite (substr_cons text e en w' Hlt Hw') in Hw.
        injection Hw as -> _. reflexivity.
      - apply nth_error_None in Hw'. unfold substr in Hw.
        rewrite skipn_all2 in Hw by exact Hw'.
        rewrite firstn_nil in Hw. discriminate. }
    rewrite <- (word_at_some text e w Hnth).
    destruct e as [ | p]; [lia | ].
    apply boundary_after_word; [exact Hbe | exact Hwe].
  - rewrite length_app. lia.
Qed.

(** A match gives one replacement. *)
Lemma on_match_singleton (text : pystr) (st en : nat) :
  matches text HEX_RUN st en ->
  exists d,
    on_match text [] (st, en)
    = [Replacement.mk (Z.of_nat st) (Z.of_nat en) (substr text st en) d].
Proof.
  intro Hm.
  pose proof (matched_run_tokens text st en Hm) as (_ & _ & _ & Hd).
  unfold on_match. fold (tokens_of text (st, en)).
  destruct (_decode_hex_bytes (tokens_of text (st, en))) as [ | ch d];
    [contradiction | ].
  eexists. reflexivity.
Qed.

(** X5. [total_hex_bytes] of the result of [decode_text] is the number
    of bytes that were decoded, the tokens of the stripped runs, and it
    is at least three for each replacement. *)
Theorem total_hex_bytes_counts_decoded (text : pystr) :
  total_hex_bytes (decode_text text)
  = py_sum (map (fun m => Z.of_nat (length (tokens_of text m)))
              (finditer HEX_RUN text))
  /\ (3 * DecodeResult.num_replacements (decode_text text)
      <= total_hex_bytes (decode_text text))%Z.
Proof.
  unfold total_hex_bytes, decode_text.
  cbn [DecodeResult.replacements DecodeResult.num_replacements].
  rewrite find_replacements_flat_map. unfold finditer.
  pose proof (finditer_from_matches HEX_RUN text (S (length text)) 0) as Hm.
  induction Hm as [ | [st en] ms [Hm _] _ [IH1 IH2]].
  - split; [reflexivity | ]. unfold py_sum. cbn. lia.
  - cbn [fst snd] in Hm.
    destruct (findall_matched_run text st en Hm) as [Hf H3].
    destruct (on_match_singleton text st en Hm) as (d & Hd).
    cbn [flat_map]. rewrite Hd.
    cbn [app map length Replacement.hex_run].
    rewrite !py_sum_cons, Hf, IH1. split; [reflexivity | ].
    rewrite <- IH1. lia.
Qed.

Lemma interleave_length_eq (text : pystr) (reps : list Replacement.t) :
  forall lo,
    (0 <= lo <= Z.of_nat (length text))%Z ->
    well_ordered (Z.of_nat (length text)) lo reps ->
    (Z.of_nat (length (interleave text lo reps))
     + py_sum (map (fun r => Replacement.end_ r - Replacement.start r)
                 reps)
     = Z.of_nat (length text) - lo
       + py_sum (map (fun r => Z.of_nat (length (Replacement.decoded r)))
                   reps))%Z.
Proof.
  induction reps as [ | r rest IH]; intros lo Hlo Hwo;
    cbn [interleave map].
  - rewrite slice_from_length by lia. unfold py_sum. cbn. lia.
  - inversion Hwo as [ | lo' r' rest' H1 H2 H3 H4]; subst.
    specialize (IH (Replacement.end_ r) ltac:(lia) H4).
    rewrite !py_sum_cons, !length_app, !Nat2Z.inj_add.
    rewrite slice_length by lia. lia.
Qed.

Lemma hex_run_lengths (text : pystr) (reps : list Replacement.t) :
  Forall (span_invariant text) reps ->
  map (fun r => Z.of_nat (length (Replacement.hex_run r))) reps
  = map (fun r => (Replacement.end_ r - Replacement.start r)%Z) reps.
Proof.
  intro H. induction H as [ | r reps (Hr & Hlen & Hs) _ IH]; cbn [map].
  - reflexivity.
  - rewrite IH, <- Hs, slice_length by lia. reflexivity.
Qed.

(** X6. The length of the decoded text of [decode_text] is the length of
    the text, less the lengths of the runs ([hex_run]), plus
    [total_decoded_chars]. *)
Theorem decoded_length_accounting (text : pystr) :
  (Z.of_nat (length (DecodeResult.decoded (decode_text text)))
   + py_sum (map (fun r => Z.of_nat (length (Replacement.hex_run r)))
               (DecodeResult.replacements (decode_text text)))
   = Z.of_nat (length text) + total_decoded_chars (decode_text text))%Z.
Proof.
  unfold total_decoded_chars, decode_text.
  cbn [DecodeResult.decoded DecodeResult.replacements].
  rewrite apply_replacements_fold, <- fold_left_rev_right, rev_involutive.
  rewrite (fold_substitute text _ 0 ltac:(lia)
             (find_replacements_well_ordered text)).
  rewrite slice_to_firstn by lia. cbn [Z.to_nat firstn app].
  assert (Hinv : Forall (span_invariant text) (find_replacements text)).
  { rewrite find_replacements_flat_map.
    apply (chain_well_ordered text (finditer HEX_RUN text) 0).
    apply finditer_from_chain. apply consuming_HEX_RUN. }
  rewrite (hex_run_lengths text _ Hinv).
  pose proof (interleave_length_eq text (find_replacements text) 0
                ltac:(lia) (find_replacements_well_ordered text)) as H.
  lia.
Qed.

End FigureFacts.

(** ** Decoding the bytes *)

Ltac byte_cases :=
  unfold scalar_value, REPLACEMENT_CHARACTER, second_of_three,
    second_of_four in *;
  unfold is_continuation in *; unfold in_range in *;
  repeat (match goal with
          | H : context [(?a <=? ?b)%N] |- _ => destruct (N.leb_spec a b)
          | H : context [(?a <? ?b)%N] |- _ => destruct (N.ltb_spec a b)
          | H : context [(?a =? ?b)%N] |- _ => destruct (N.eqb_spec a b)
          end; cbn [andb orb negb] in *; try discriminate);
  try lia.

Section BytesFacts.

(** What [errors="replace"] gives is made of scalar values: a malformed
    sequence never comes out as a surrogate or as a code point beyond
    U+10FFFF. *)
Lemma utf8_decode_replace_scalar (bs : list byte) :
  Forall scalar_value (utf8_decode_replace bs).
Proof.
  assert (H : forall n (l : list byte),
             length l <= n -> Forall scalar_value (utf8_decode_replace l)).
  { intro n. induction n as [ | n IH]; intros l Hl.
    - destruct l; [constructor | simpl in Hl; lia].
    - destruct l as [ | b0 r0]; [constructor | ].
      cbn [utf8_decode_replace].
      repeat match goal with
        | |- context [if ?b then _ else _] => destruct b eqn:?
        | |- context [match ?l with [] => _ | _ :: _ => _ end] =>
            destruct l
        end;
        (constructor;
         [ | first [ constructor
                   | apply IH; cbn [length] in *; lia ] ]);
        clear IH Hl; byte_cases. }
  apply (H (length bs)). apply Nat.le_refl.
Qed.

(** ASCII bytes decode to the characters with those codes. *)
Lemma utf8_decode_replace_ascii (bs : list byte) :
  Forall (fun b => (b < 128)%N) bs -> utf8_decode_replace bs = bs.
Proof.
  intro H. induction H as [ | b bs Hb _ IH]; cbn [utf8_decode_replace].
  - reflexivity.
  - apply N.ltb_lt in Hb. rewrite Hb, IH. reflexivity.
Qed.

Lemma token_byte_two_hex (t : pystr) (b : byte) :
  token_byte t b -> two_hex_digits t.
Proof.
  intros (h1 & h2 & top & bot & -> & H1 & H2 & _).
  exists h1, h2. repeat split.
  - unfold hex_value in H1. unfold is_hex.
    destruct (in_range 48 57 h1); [reflexivity | ].
    destruct (in_range 65 70 h1); [reflexivity | ].
    destruct (in_range 97 102 h1); [reflexivity | discriminate].
  - unfold hex_value in H2. unfold is_hex.
    destruct (in_range 48 57 h2); [reflexivity | ].
    destruct (in_range 65 70 h2); [reflexivity | ].
    destruct (in_range 97 102 h2); [reflexivity | discriminate].
Qed.

(** [bytes.fromhex] on tokens put end to end gives the byte of each
    token. *)
Lemma fromhex_token_bytes (tokens : list pystr) (bs : list byte) :
  Forall2 token_byte tokens bs -> fromhex (concat tokens) = Some bs.
Proof.
  intro H. induction H as [ | t b tokens bs Ht _ IH].
  - reflexivity.
  - pose proof (token_byte_two_hex t b Ht) as (h1' & h2' & Ht' & Hh1 & _).
    destruct Ht as (h1 & h2 & top & bot & -> & H1 & H2 & ->).
    injection Ht' as <- <-.
    cbn [concat app fromhex].
    rewrite (hex_not_fromhex_space h1 Hh1), H1, H2, IH. reflexivity.
Qed.

(** X7. Whatever the tokens, [_decode_hex_bytes] returns Unicode scalar
    values only, and for tokens of two hexadecimal digits it returns at
    most one character per token. *)
Theorem decode_hex_bytes_scalar (byte_tokens : list pystr) :
  Forall scalar_value (_decode_hex_bytes byte_tokens)
  /\ (Forall two_hex_digits byte_tokens ->
      length (_decode_hex_bytes byte_tokens) <= length byte_tokens).
Proof.
  unfold _decode_hex_bytes. split.
  - destruct (fromhex (concat byte_tokens)) as [bs | ].
    + apply utf8_decode_replace_scalar.
    + constructor.
  - intro H. destruct (fromhex_tokens byte_tokens H) as (bs & -> & <-).
    apply utf8_decode_replace_length.
Qed.

(** X8. Tokens that write ASCII bytes decode to the characters with those
    codes, one per token and in order. *)
Theorem decode_hex_bytes_ascii (byte_tokens : list pystr)
  (bs : list byte) :
  Forall2 token_byte byte_tokens bs ->
  Forall (fun b => (b < 128)%N) bs ->
  _decode_hex_bytes byte_tokens = bs.
Proof.
  intros Ht Hb. unfold _decode_hex_bytes.
  rewrite (fromhex_token_bytes byte_tokens bs Ht).
  apply utf8_decode_replace_ascii. exact Hb.
Qed.

End BytesFacts.

(** ** The history store, continued *)

Section StoreFacts.
Context {U : UnicodeDB}.

Lemma storable_forallb (history : list HistoryEntry.t) :
  storable history
  = forallb (fun e => json_encodable (HistoryEntry.to_dict e)) history.
Proof.
  induction history as [ | e history IH]; [reflexivity | ].
  change (storable (e :: history))
    with (json_encodable (HistoryEntry.to_dict e) && storable history).
  rewrite IH. reflexivity.
Qed.

Lemma storable_app (a b : list HistoryEntry.t) :
  storable (a ++ b) = storable a && storable b.
Proof. rewrite !storable_forallb. apply forallb_app. Qed.

Lemma storable_parts (n : nat) (l : list HistoryEntry.t) :
  storable l = true ->
  storable (firstn n l) = true /\ storable (skipn n l) = true.
Proof.
  intro H. rewrite <- (firstn_skipn n l), storable_app in H.
  apply andb_true_iff in H. exact H.
Qed.

Lemma storable_pop (i : nat) (l : list HistoryEntry.t) :
  storable l = true -> storable (pop l i) = true.
Proof.
  intro H. unfold pop. rewrite storable_app.
  destruct (storable_parts i l H) as [-> _].
  destruct (storable_parts (S i) l H) as [_ ->]. reflexivity.
Qed.


Lemma comprehension_dicts (items : list pyval) :
  forallb is_dict items = true ->
  exists entries,
    comprehension HistoryEntry.from_dict items = Ok entries
    /\ length entries = length items.
Proof.
  induction items as [ | v items IH]; cbn [forallb]; intro H.
  - exists []. split; reflexivity.
  - apply andb_true_iff in H. destruct H as [Hv Hitems].
    destruct (IH Hitems) as (entries & He & Hl).
    destruct v as [ | b | z | s | l | kvs]; try discriminate.
    cbn [comprehension HistoryEntry.from_dict bind]. rewrite He.
    cbn [bind]. eexists. split; [reflexivity | ].
    cbn [length]. rewrite Hl. reflexivity.
Qed.

Lemma comprehension_not_dicts (items : list pyval) :
  forallb is_dict items = false ->
  comprehension HistoryEntry.from_dict items = Raise AttributeError.
Proof.
  induction items as [ | v items IH]; cbn [forallb]; intro H.
  - discriminate.
  - destruct v as [ | b | z | s | l | kvs]; try reflexivity.
    cbn [is_dict andb] in H.
    cbn [comprehension HistoryEntry.from_dict bind].
    rewrite (IH H). reflexivity.
Qed.

(** X10. When the file holds a JSON array, [load_history] returns one
    entry per element if every element is an object, and raises
    [AttributeError] if one is not. *)
Theorem load_history_array (items : list pyval) :
  (forallb is_dict items = true ->
   exists entries,
     load_history (Document (PList items)) = Ok entries
     /\ length entries = length items)
  /\ (forallb is_dict items = false ->
      load_history (Document (PList items)) = Raise AttributeError).
Proof.
  unfold load_history, json_load, py_iter, try_except. cbn [bind].
  split; intro H.
  - destruct (comprehension_dicts items H) as (entries & -> & Hl).
    exists entries. split; [reflexivity | exact Hl].
  - rewrite (comprehension_not_dicts items H). reflexivity.
Qed.

Lemma length_slice_from_last {A} (l : list A) (n : Z) :
  (0 < n < Z.of_nat (length l))%Z ->
  Z.of_nat (length (slice_from l (- n))) = n.
Proof.
  intro H. rewrite slice_from_last by exact H.
  rewrite length_skipn. lia.
Qed.






Lemma length_pop {A} (l : list A) (i : nat) :
  i < length l -> S (length (pop l i)) = length l.
Proof.
  intro H. unfold pop.
  rewrite length_app, length_firstn, length_skipn. lia.
Qed.

Lemma first_match_bound (entry : HistoryEntry.t)
  (history : list HistoryEntry.t) :
  forall i j, first_match entry history i = Some j ->
  i <= j < i + length history.
Proof.
  induction history as [ | e history IH]; intros i j H; cbn in H.
  - discriminate.
  - destruct (same_identity e entry).
    + injection H as <-. cbn [length]. lia.
    + apply IH in H. cbn [length]. lia.
Qed.

(** X13. On a store that loads, with strings that can all be encoded,
    and a file that can be written, [delete_history_entry] returns, and
    it lowers [get_history_count] by one when it returns [True] and
    leaves it as it was when it returns [False]. *)
Theorem count_after_delete (d : disk) (entry : HistoryEntry.t)
  (history : list HistoryEntry.t) :
  load_history (file d) = Ok history ->
  writable d = true ->
  storable history = true ->
  exists found d',
    delete_history_entry d entry = (Ok found, d')
    /\ get_history_count d'
       = Ok (Z.of_nat (length history) - (if found then 1 else 0))%Z.
Proof.
  intros Hload Hw Hst. unfold delete_history_entry. rewrite Hload.
  cbn [bind_io].
  destruct (first_match entry history 0) as [i | ] eqn:Hi.
  - rewrite (save_history_written d (pop history i) Hw
               (storable_pop i history Hst)).
    cbn [bind_io]. exists true, (disk_with (pop history i)).
    split; [reflexivity | ].
    unfold get_history_count. rewrite load_disk_with. cbn [bind].
    apply first_match_bound in Hi.
    pose proof (length_pop history i ltac:(lia)) as Hl.
    f_equal. lia.
  - exists false, d. split; [reflexivity | ].
    unfold get_history_count. rewrite Hload. cbn [bind]. f_equal. lia.
Qed.






End StoreFacts.

(** ** The display of a result *)

Section DisplayFacts.
Context {U : UnicodeDB}.

(** Sorting replacements that are in order changes nothing. *)
Lemma sorted_well_ordered (len : Z) (reps : list Replacement.t) :
  forall lo, well_ordered len lo reps -> sorted_by_start reps = reps.
Proof.
  induction reps as [ | r rest IH]; intros lo H.
  - reflexivity.
  - inversion H as [ | lo' r' rest' H1 H2 H3 H4]; subst.
    unfold sorted_by_start in *. cbn [fold_right].
    rewrite (IH _ H4).
    destruct rest as [ | x rest]; [reflexivity | ].
    inversion H4 as [ | lo' r' rest' H5 _ _ _]; subst.
    cbn [insert_by_start].
    replace (Replacement.start r <=? Replacement.start x)%Z with true;
      [reflexivity | ].
    symmetry. apply Z.leb_le. lia.
Qed.

Lemma well_ordered_tagged (text : pystr) (flag : bool) (len : Z)
  (reps : list Replacement.t) :
  forall lo,
    well_ordered len lo reps ->
    well_ordered len lo (map (tagged text flag) reps).
Proof.
  induction reps as [ | r rest IH]; intros lo H; cbn [map].
  - constructor.
  - inversion H as [ | lo' r' rest' H1 H2 H3 H4]; subst.
    constructor; cbn [tagged Replacement.start Replacement.end_];
      try assumption.
    apply (IH _ H4).
Qed.

(** The loop of [format_text_with_highlights] joins the untouched
    segments with what it shows for each replacement. *)
Lemma highlight_fold (text : pystr) (flag : bool)
  (reps : list Replacement.t) :
  forall (acc : list pystr) (cursor : Z),
    concat
      (fst (fold_left (highlight_step text flag) reps (acc, cursor))
       ++ [slice_from text
             (snd (fold_left (highlight_step text flag) reps
                     (acc, cursor)))])
    = concat acc ++ interleave text cursor (map (tagged text flag) reps).
Proof.
  induction reps as [ | r rest IH]; intros acc cursor;
    cbn [fold_left map interleave].
  - cbn [fst snd]. rewrite concat_app. cbn [concat].
    rewrite app_nil_r. reflexivity.
  - unfold highlight_step at 2 4. cbn [fst snd].
    destruct flag; rewrite IH, !concat_app; cbn [concat tagged
      Replacement.start Replacement.end_ Replacement.decoded];
      rewrite !app_nil_r, <- !app_assoc; reflexivity.
Qed.

Lemma decoded_fold (text : pystr) (reps : list Replacement.t) :
  forall state,
    fold_left (decoded_step text) reps state
    = fold_left (highlight_step text false) reps state.
Proof.
  induction reps as [ | r rest IH]; intro state; cbn [fold_left].
  - reflexivity.
  - rewrite IH. reflexivity.
Qed.

Lemma apply_replacements_is_interleave (text : pystr)
  (reps : list Replacement.t) :
  well_ordered (Z.of_nat (length text)) 0 reps ->
  apply_replacements text reps = interleave text 0 reps.
Proof.
  intro H.
  rewrite apply_replacements_fold, <- fold_left_rev_right, rev_involutive.
  rewrite (fold_substitute text reps 0 ltac:(lia) H).
  rewrite slice_to_firstn by lia. reflexivity.
Qed.

Lemma slice_from_0 (text : pystr) : slice_from text 0 = text.
Proof.
  unfold slice_from. rewrite clip_in_range by lia. reflexivity.
Qed.

(** X15. For replacements in order that do not overlap and lie in the
    text, [format_text_with_highlights] is the substitution of
    [apply_replacements] with, for each replacement, the run in yellow
    tags or the decoded string in green tags: outside the tags, the text
    is as it was. *)
Theorem format_text_is_substitution (original_text : pystr)
  (reps : list Replacement.t) (highlight_hex : bool) :
  well_ordered (Z.of_nat (length original_text)) 0 reps ->
  format_text_with_highlights original_text reps highlight_hex
  = apply_replacements original_text
      (map (tagged original_text highlight_hex) reps).
Proof.
  intro H.
  rewrite (apply_replacements_is_interleave _ _
             (well_ordered_tagged original_text highlight_hex _ reps 0 H)).
  destruct reps as [ | r rest].
  - cbn. rewrite slice_from_0. reflexivity.
  - unfold format_text_with_highlights.
    rewrite (sorted_well_ordered _ _ 0 H), highlight_fold. reflexivity.
Qed.

(** X16. On the result of [decode_text], the two displays of the decoded
    text agree, also when nothing was found: both are the decoded text
    with each decoded string in green tags. *)
Theorem displays_of_decode_result (text : pystr) :
  let res := decode_text text in
  format_decoded_text_with_highlights (DecodeResult.decoded res)
    (DecodeResult.original res) (DecodeResult.replacements res)
  = format_text_with_highlights (DecodeResult.original res)
      (DecodeResult.replacements res) false
  /\ format_text_with_highlights (DecodeResult.original res)
       (DecodeResult.replacements res) false
     = apply_replacements text
         (map (tagged text false) (find_replacements text)).
Proof.
  cbn zeta. unfold decode_text.
  cbn [DecodeResult.decoded DecodeResult.original
       DecodeResult.replacements].
  pose proof (find_replacements_well_ordered text) as Hwo.
  split.
  - destruct (find_replacements text) as [ | r rest]; [reflexivity | ].
    unfold format_decoded_text_with_highlights,
      format_text_with_highlights.
    rewrite decoded_fold. reflexivity.
  - rewrite (apply_replacements_is_interleave _ _
               (well_ordered_tagged text false _ _ 0 Hwo)).
    destruct (find_replacements text) as [ | r rest].
    + cbn. rewrite slice_from_0. reflexivity.
    + unfold format_text_with_highlights.
      rewrite (sorted_well_ordered _ _ 0 Hwo), highlight_fold.
      reflexivity.
Qed.

End DisplayFacts.

(** ** The banner *)

Section BannerFacts.

Lemma length_py_repeat (c : char) (n : Z) :
  length (py_repeat [c] n) = Z.to_nat n.
Proof.
  unfold py_repeat. induction (Z.to_nat n) as [ | k IH]; cbn.
  - reflexivity.
  - cbn in IH. rewrite IH. reflexivity.
Qed.

Lemma centered_line_length (width : Z) (line : pystr) :
  (5 <= width)%Z ->
  Z.of_nat (length (centered_line width line)) = width.
Proof.
  intro Hw. unfold centered_line, BOX_VERTICAL.
  change (pystr_of " ") with [32%N].
  set (cut := if (Z.of_nat (length line) >? width - 4)%Z
              then slice_to line (width - 4) else line).
  assert (Hcut : (Z.of_nat (length cut) <= width - 4)%Z).
  { unfold cut.
    destruct (Z.gtb_spec (Z.of_nat (length line)) (width - 4)) as [H | H].
    - rewrite slice_to_firstn by lia. rewrite length_firstn. lia.
    - exact H. }
  rewrite !length_app, !length_py_repeat. cbn [length].
  pose proof (Z.div_mod (width - 2 - Z.of_nat (length cut)) 2
                ltac:(lia)) as Hdiv.
  pose proof (Z.mod_pos_bound (width - 2 - Z.of_nat (length cut)) 2
                ltac:(lia)) as Hmod.
  lia.
Qed.

Lemma border_length (left right fill : char) (width : Z) :
  (5 <= width)%Z ->
  Z.of_nat (length ([left] ++ py_repeat [fill] (width - 2) ++ [right]))
  = width.
Proof.
  intro Hw. rewrite !length_app, length_py_repeat. cbn [length]. lia.
Qed.

(** X17. For a width of four or more, the lines of the banner all have
    the same length, the width made odd; there are four of them, one
    per title line and, with a subtitle, one more and one per line of
    the subtitle. *)
Theorem banner_lines_aligned (title_lines : list pystr) (subtitle : pystr)
  (width : Z) :
  (4 <= width)%Z ->
  let odd_width := if (width mod 2 =? 0)%Z then (width + 1)%Z else width in
  Forall (fun line => Z.of_nat (length line) = odd_width)
    (banner_lines title_lines subtitle width)
  /\ length (banner_lines title_lines subtitle width)
     = 4 + length title_lines
       + match subtitle with
         | [] => 0
         | _ :: _ => 1 + length (split_on 10%N subtitle)
         end.
Proof.
  intros Hw odd_width. unfold banner_lines. fold odd_width.
  assert (Hodd : (5 <= odd_width)%Z).
  { unfold odd_width. destruct (Z.eqb_spec (width mod 2) 0) as [H | H].
    - lia.
    - pose proof (Z.mod_pos_bound width 2 ltac:(lia)).
      pose proof (Z.div_mod width 2 ltac:(lia)). lia. }
  clearbody odd_width.
  unfold BOX_TOP_LEFT, BOX_TOP_RIGHT, BOX_BOTTOM_LEFT, BOX_BOTTOM_RIGHT,
    BOX_HORIZONTAL, BOX_VERTICAL.
  change (pystr_of " ") with [32%N].
  assert (Hcentered : forall l,
             Forall (fun line => Z.of_nat (length line) = odd_width)
               (map (centered_line odd_width) l)).
  { intro l. apply Forall_map. apply Forall_forall. intros line _.
    apply centered_line_length. exact Hodd. }
  split.
  - destruct subtitle as [ | c subtitle];
      repeat (apply Forall_app; split);
      repeat (apply Forall_cons);
      try apply Forall_nil; try apply Hcentered;
      apply border_length; exact Hodd.
  - destruct subtitle as [ | c subtitle];
      rewrite !length_app, !length_map; cbn [length]; lia.
Qed.

End BannerFacts.

(** ** A text that is one run *)

Section WholeRunFacts.
Context {U : UnicodeDB}.

Lemma exec_token (s : pystr) (k : nat -> option nat) (p : nat)
  (h1 h2 : char) :
  at_boundary s p = true ->
  nth_error s p = Some h1 -> is_hex h1 = true ->
  nth_error s (S p) = Some h2 -> is_hex h2 = true ->
  at_boundary s (S (S p)) = true ->
  exec HEX_TOKEN s k p = k (S (S p)).
Proof.
  intros Hb H1 Hh1 H2 Hh2 Hb'. unfold HEX_TOKEN. cbn [exec].
  rewrite Hb, H1, Hh1, H2, Hh2, Hb'. reflexivity.
Qed.

Lemma exec_token_none (s : pystr) (k : nat -> option nat) (p : nat) :
  match nth_error s p with Some c => is_hex c | None => false end = false ->
  exec HEX_TOKEN s k p = None.
Proof.
  intro H. unfold HEX_TOKEN. cbn [exec].
  destruct (at_boundary s p); [ | reflexivity].
  destruct (nth_error s p) as [c | ]; [ | reflexivity].
  rewrite H. reflexivity.
Qed.

(** The loop over one class of characters goes through a stretch of
    them and hands over to its continuation after the last one. *)
Lemma class_loop_run (P : char -> bool) (n : nat) (k : nat -> option nat)
  (rest : pystr) (e : nat) (ws : pystr) :
  match rest with [] => True | c :: _ => P c = false end ->
  forall pre fuel count,
    Forall (fun c => P c = true) ws ->
    length ws < fuel ->
    n <= count + length ws ->
    k (length pre + length ws) = Some e ->
    repeat_greedy (exec (Class P) (pre ++ ws ++ rest)) n k fuel count
      (length pre)
    = Some e.
Proof.
  intro Hrest. induction ws as [ | w ws IH];
    intros pre fuel count Hws Hfuel Hn Hk;
    (destruct fuel as [ | fuel]; [simpl in Hfuel; lia | ]);
    cbn [repeat_greedy]; rewrite exec_class.
  - cbn [app length] in *. rewrite Nat.add_0_r in *.
    rewrite <- (Nat.add_0_r (length pre)) at 1.
    rewrite nth_error_shift.
    replace (n <=? count) with true by (symmetry; apply Nat.leb_le; lia).
    destruct rest as [ | c rest']; cbn [nth_error].
    + exact Hk.
    + rewrite Hrest. exact Hk.
  - inversion Hws as [ | w' ws' Hw Hws']; subst.
    rewrite <- (Nat.add_0_r (length pre)) at 1.
    rewrite nth_error_shift. cbn [app nth_error]. rewrite Hw.
    replace (length pre <? S (length pre)) with true
      by (symmetry; apply Nat.ltb_lt; lia).
    replace (pre ++ w :: ws ++ rest) with ((pre ++ [w]) ++ ws ++ rest)
      by (rewrite <- app_assoc; reflexivity).
    replace (S (length pre)) with (length (pre ++ [w]))
      by (rewrite length_app; simpl; lia).
    rewrite (IH (pre ++ [w]) fuel (S count) Hws').
    + reflexivity.
    + simpl in Hfuel. lia.
    + simpl in Hn. lia.
    + rewrite length_app. cbn [length] in *.
      replace (length pre + 1 + length ws)
        with (length pre + S (length ws)) by lia.
      exact Hk.
Qed.

(** At the end of the string the loop of [HEX_RUN] stops. *)
Lemma run_loop_at_end (s : pystr) (fuel count : nat) :
  3 <= count ->
  repeat_greedy (exec HEX_RUN_body s) 3 Some fuel count (length s)
  = Some (length s).
Proof.
  intro Hc. apply Nat.leb_le in Hc.
  destruct fuel as [ | fuel]; cbn [repeat_greedy]; rewrite Hc.
  - reflexivity.
  - change (exec HEX_RUN_body s) with
      (fun k => exec HEX_TOKEN s
                  (exec (Alt (AtLeast 1 (Class is_space)) EndLine) s k)).
    cbv beta. rewrite exec_token_none; [reflexivity | ].
    replace (nth_error s (length s)) with (@None char); [reflexivity | ].
    symmetry. apply nth_error_None. apply Nat.le_refl.
Qed.

(** After the separator that follows a token, the next token starts at
    a boundary. *)
Lemma boundary_after_separator (pre ws body suf : pystr)
  (tokens : list pystr) :
  token_run body tokens ->
  ws <> [] -> is_word (last ws 0%N) = false ->
  at_boundary ((pre ++ ws) ++ body ++ suf) (length (pre ++ ws)) = true.
Proof.
  intros Hrun Hne Hlast.
  destruct (token_run_first body tokens Hrun) as (h & rest & -> & Hh).
  destruct (exists_last Hne) as (ws0 & w & Hw).
  rewrite Hw, last_last in Hlast.
  assert (Hpre : pre ++ ws = (pre ++ ws0) ++ [w])
    by (rewrite Hw, app_assoc; reflexivity).
  assert (Hlen : length (pre ++ ws) = S (length (pre ++ ws0)))
    by (rewrite Hpre, length_app; simpl; lia).
  rewrite Hlen. unfold at_boundary, word_at.
  cbn [app]. rewrite <- Hlen, nth_error_middle.
  rewrite Hpre, <- app_assoc. cbn [app]. rewrite nth_error_middle.
  rewrite Hlast, (hex_is_word h Hh). reflexivity.
Qed.

Lemma exec_body (s : pystr) (k : nat -> option nat) (i : nat) :
  exec HEX_RUN_body s k i
  = exec HEX_TOKEN s
      (exec (Alt (AtLeast 1 (Class is_space)) EndLine) s k) i.
Proof. reflexivity. Qed.

Lemma exec_atleast (s : pystr) (n : nat) (r : regex)
  (k : nat -> option nat) (i : nat) :
  exec (AtLeast n r) s k i
  = repeat_greedy (exec r s) n k (S (length s - i)) 0 i.
Proof. reflexivity. Qed.

(** On a run of tokens that whitespace follows to the end of the string,
    the loop of [HEX_RUN] goes to the end of the string. *)
Lemma run_loop_computes (body : pystr) (tokens : list pystr) :
  token_run body tokens ->
  forall pre suf fuel count,
    at_boundary (pre ++ body ++ suf) (length pre) = true ->
    Forall (fun c => is_space c = true) suf ->
    match suf with [] => false | w :: _ => is_word w end = false ->
    length (body ++ suf) < fuel ->
    3 <= count + length tokens ->
    repeat_greedy (exec HEX_RUN_body (pre ++ body ++ suf)) 3 Some fuel
      count (length pre)
    = Some (length (pre ++ body ++ suf)).
Proof.
  intro H.
  induction H as [h1 h2 Hh1 Hh2
                 | h1 h2 ws body tokens Hh1 Hh2 Hne Hws Hhd Hlast Hrun IH];
    intros pre suf fuel count Hb Hsuf Hsufw Hfuel Hcount;
    (destruct fuel as [ | fuel]; [simpl in Hfuel; lia | ]);
    cbn [repeat_greedy].
  - (* the last token *)
    cbn [app] in *.
    set (s := pre ++ h1 :: h2 :: suf) in *.
    assert (Hlen : length s = S (S (length pre)) + length suf).
    { unfold s. rewrite length_app. simpl. lia. }
    assert (H1 : nth_error s (length pre) = Some h1).
    { rewrite <- (Nat.add_0_r (length pre)). unfold s.
      rewrite nth_error_shift. reflexivity. }
    assert (H2 : nth_error s (S (length pre)) = Some h2).
    { replace (S (length pre)) with (length pre + 1) by lia. unfold s.
      rewrite nth_error_shift. reflexivity. }
    assert (H3 : nth_error s (S (S (length pre))) = nth_error suf 0).
    { replace (S (S (length pre))) with (length pre + 2) by lia. unfold s.
      rewrite nth_error_shift. reflexivity. }
    assert (Hb' : at_boundary s (S (S (length pre))) = true).
    { unfold at_boundary. rewrite (word_at_some s _ h2 H2).
      rewrite (hex_is_word h2 Hh2). unfold word_at. rewrite H3.
      destruct suf as [ | w suf']; cbn [nth_error]; [reflexivity | ].
      rewrite Hsufw. reflexivity. }
    rewrite exec_body.
    rewrite (exec_token s _ (length pre) h1 h2 Hb H1 Hh1 H2 Hh2 Hb').
    match goal with
    | |- context [exec _ s ?K0 (S (S (length pre)))] => set (K := K0)
    end.
    rewrite exec_alt, exec_atleast.
    assert (Hend : forall j, length pre < j -> j = length s ->
               K j = Some (length s)).
    { intros j Hj ->. unfold K. cbv beta. apply Nat.ltb_lt in Hj.
      rewrite Hj. apply run_loop_at_end. cbn [length] in Hcount. lia. }
    destruct suf as [ | w suf'].
    + (* nothing follows: the end of the line *)
      assert (Hws0 : repeat_greedy (exec (Class is_space) s) 1 K
                       (S (length s - S (S (length pre)))) 0
                       (S (S (length pre))) = None).
      { cbn [repeat_greedy]. rewrite exec_class, H3. reflexivity. }
      rewrite Hws0, exec_endline. unfold at_line_end. rewrite H3.
      cbn [nth_error]. cbn [length] in Hlen.
      replace (S (S (length pre)) =? length s) with true
        by (symmetry; apply Nat.eqb_eq; lia).
      rewrite (Hend (S (S (length pre)))) by lia. reflexivity.
    + (* whitespace follows, to the end of the string *)
      assert (Hs : s = (pre ++ [h1; h2]) ++ (w :: suf') ++ [])
        by (unfold s; rewrite app_nil_r, <- app_assoc; reflexivity).
      assert (Hp : S (S (length pre)) = length (pre ++ [h1; h2]))
        by (rewrite length_app; simpl; lia).
      pose proof (class_loop_run is_space 1 K [] (length s) (w :: suf') I
                    (pre ++ [h1; h2])
                    (S (length s - S (S (length pre)))) 0 Hsuf) as Hc.
      rewrite <- Hs, <- Hp in Hc.
      rewrite Hc.
      * reflexivity.
      * rewrite Hlen. cbn [length]. lia.
      * cbn [length]. lia.
      * apply Hend; [lia | rewrite Hlen; cbn [length]; lia].
  - (* a token, its separator and the rest of the run *)
    assert (Hs0 : pre ++ (h1 :: h2 :: ws ++ body) ++ suf
                  = pre ++ h1 :: h2 :: ws ++ body ++ suf).
    { cbn [app]. rewrite <- app_assoc. reflexivity. }
    rewrite Hs0 in *.
    destruct ws as [ | w ws']; [exfalso; apply Hne; reflexivity | ].
    set (s := pre ++ h1 :: h2 :: (w :: ws') ++ body ++ suf) in *.
    assert (H1 : nth_error s (length pre) = Some h1).
    { rewrite <- (Nat.add_0_r (length pre)). unfold s.
      rewrite nth_error_shift. reflexivity. }
    assert (H2 : nth_error s (S (length pre)) = Some h2).
    { replace (S (length pre)) with (length pre + 1) by lia. unfold s.
      rewrite nth_error_shift. reflexivity. }
    assert (H3 : nth_error s (S (S (length pre))) = Some w).
    { replace (S (S (length pre))) with (length pre + 2) by lia. unfold s.
      rewrite nth_error_shift. reflexivity. }
    assert (Hb' : at_boundary s (S (S (length pre))) = true).
    { unfold at_boundary. rewrite (word_at_some s _ h2 H2).
      rewrite (hex_is_word h2 Hh2), (word_at_some s _ w H3).
      cbn [hd] in Hhd. rewrite Hhd. reflexivity. }
    rewrite exec_body.
    rewrite (exec_token s _ (length pre) h1 h2 Hb H1 Hh1 H2 Hh2 Hb').
    match goal with
    | |- context [exec _ s ?K0 (S (S (length pre)))] => set (K := K0)
    end.
    rewrite exec_alt, exec_atleast.
    destruct (token_run_first body tokens Hrun) as (h & rest & Hbody & Hh).
    assert (Hrest : match body ++ suf with
                    | [] => True
                    | c :: _ => is_space c = false
                    end).
    { rewrite Hbody. cbn [app]. apply hex_not_space. exact Hh. }
    assert (Hs : s = (pre ++ [h1; h2]) ++ (w :: ws') ++ body ++ suf)
      by (unfold s; rewrite <- app_assoc; reflexivity).
    assert (Hp : S (S (length pre)) = length (pre ++ [h1; h2]))
      by (rewrite length_app; simpl; lia).
    assert (Hs' : s = ((pre ++ [h1; h2]) ++ w :: ws') ++ body ++ suf)
      by (rewrite Hs; apply app_assoc).
    assert (Hp' : length ((pre ++ [h1; h2]) ++ w :: ws')
                  = S (S (length pre)) + length (w :: ws'))
      by (rewrite !length_app; cbn [length]; lia).
    assert (Hlen : length s
                   = S (S (length pre)) + length (w :: ws')
                     + length (body ++ suf)).
    { rewrite <- Hp'. rewrite Hs' at 1. rewrite length_app. reflexivity. }
    pose proof (class_loop_run is_space 1 K (body ++ suf) (length s)
                  (w :: ws') Hrest (pre ++ [h1; h2])
                  (S (length s - S (S (length pre)))) 0 Hws) as Hc.
    rewrite <- Hs, <- Hp in Hc.
    rewrite Hc.
    + reflexivity.
    + rewrite Hlen. lia.
    + cbn [length]. lia.
    + unfold K. cbv beta.
      replace (length pre <? S (S (length pre)) + length (w :: ws'))
        with true by (symmetry; apply Nat.ltb_lt; lia).
      pose proof (IH ((pre ++ [h1; h2]) ++ w :: ws') suf fuel (S count))
        as HI.
      rewrite <- Hs', Hp' in HI. apply HI.
      * rewrite <- Hp', Hs'.
        apply (boundary_after_separator (pre ++ [h1; h2]) (w :: ws')
                 body suf tokens Hrun Hne Hlast).
      * exact Hsuf.
      * exact Hsufw.
      * assert (Hl : length ((h1 :: h2 :: (w :: ws') ++ body) ++ suf)
                     = S (S (length (w :: ws') + length (body ++ suf)))).
        { cbn [app length]. rewrite <- app_assoc, length_app.
          cbn [length]. lia. }
        rewrite Hl in Hfuel. cbn [length] in Hfuel |- *. lia.
      * cbn [length] in Hcount. lia.
Qed.

(** X18. A text that is nothing but a run of three tokens or more, with
    or without whitespace after the last one, is decoded as a whole: one
    replacement spans it, and the decoded text is the decoding of the
    tokens followed by that whitespace. (That the whitespace after the
    last token does not start with a word character is a fact of the
    Unicode tables, which the model leaves open.) *)
Theorem decode_text_whole_run (body suf : pystr) (tokens : list pystr) :
  token_run body tokens ->
  3 <= length tokens ->
  Forall (fun c => is_space c = true) suf ->
  match suf with [] => false | w :: _ => is_word w end = false ->
  let text := body ++ suf in
  let decoded := _decode_hex_bytes tokens ++ suf in
  decode_text text
  = DecodeResult.mk text decoded
      [Replacement.mk 0 (Z.of_nat (length text)) text decoded] 1.
Proof.
  intros Hrun Hlen Hsuf Hsufw text decoded.
  assert (Hb0 : at_boundary ([] ++ body ++ suf) (length (@nil char))
                = true).
  { destruct (token_run_first body tokens Hrun) as (h & rest & -> & Hh).
    unfold at_boundary, word_at. simpl. apply hex_is_word. exact Hh. }
  assert (Hmatch : match_at HEX_RUN text 0 = Some (length text)).
  { change (repeat_greedy (exec HEX_RUN_body text) 3 Some
              (S (length text - 0)) 0 0 = Some (length text)).
    apply (run_loop_computes body tokens Hrun [] suf
             (S (length text - 0)) 0 Hb0 Hsuf Hsufw).
    - unfold text. lia.
    - lia. }
  assert (Hpos : 0 < length text).
  { unfold text. rewrite length_app.
    pose proof (token_run_length _ _ Hrun). lia. }
  assert (Hiter : finditer HEX_RUN text = [(0, length text)]).
  { unfold finditer. cbn [finditer_from].
    rewrite (search_found HEX_RUN text 0 0 (length text) ltac:(lia)
               Hmatch ltac:(intros p Hp; lia)).
    replace (0 <? length text) with true
      by (symmetry; apply Nat.ltb_lt; exact Hpos).
    f_equal.
    destruct (length text) as [ | n] eqn:Hn; [lia | ].
    cbn [finditer_from]. rewrite <- Hn.
    destruct (search HEX_RUN text (length text)) as [[st en] | ] eqn:Hs;
      [ | reflexivity].
    apply search_some in Hs. destruct Hs as (Hle & Hm & _).
    apply match_at_sound in Hm.
    pose proof (consuming_start text HEX_RUN consuming_HEX_RUN _ _ Hm).
    lia. }
  assert (Hreps : find_replacements text
                  = [Replacement.mk 0 (Z.of_nat (length text)) text
                       decoded]).
  { rewrite find_replacements_flat_map, Hiter. cbn [flat_map].
    rewrite app_nil_r. unfold on_match. cbn [fst snd].
    rewrite trailing_ws_skipn, substr_all. subst decoded text.
    rewrite (rstrip_token_run body suf tokens Hrun Hsuf).
    rewrite (findall_token_run body tokens Hrun).
    rewrite skipn_app, skipn_all, Nat.sub_diag. cbn [skipn app].
    pose proof (token_run_tokens _ _ Hrun) as Htwo.
    destruct (fromhex_tokens tokens Htwo) as (bs & Hbs & Hbl).
    assert (Hne : _decode_hex_bytes tokens <> []).
    { unfold _decode_hex_bytes. rewrite Hbs.
      apply utf8_decode_replace_nonempty. intros ->. simpl in Hbl. lia. }
    destruct (_decode_hex_bytes tokens) as [ | c d] eqn:Hd;
      [contradiction | ].
    reflexivity. }
  unfold decode_text. rewrite Hreps.
  cbn [length Z.of_nat Pos.of_succ_nat]. f_equal.
  unfold apply_replacements. cbn [rev app fold_left].
  unfold substitute. cbn [Replacement.start Replacement.end_
                          Replacement.decoded].
  rewrite slice_to_firstn by lia.
  unfold slice_from. rewrite clip_in_range by lia.
  rewrite Nat2Z.id, skipn_all. cbn [Z.to_nat firstn app].
  rewrite app_nil_r. reflexivity.
Qed.

End WholeRunFacts.

(** ** The further properties at work *)

Lemma decode_text_whole_run_witness :
  let text := pystr_of "48 69 21" ++ [10%N] in
  let decoded := _decode_hex_bytes
                   [pystr_of "48"; pystr_of "69"; pystr_of "21"]
                 ++ [10%N] in
  decode_text (U := ascii_db) text
  = DecodeResult.mk text decoded
      [Replacement.mk 0 (Z.of_nat (length text)) text decoded] 1.
Proof.
  apply (decode_text_whole_run (U := ascii_db) (pystr_of "48 69 21")
           [10%N] [pystr_of "48"; pystr_of "69"; pystr_of "21"]).
  - apply (token_run_more (U := ascii_db) 52%N 56%N [32%N]
             (pystr_of "69 21") [pystr_of "69"; pystr_of "21"]);
      try reflexivity; [discriminate | repeat constructor | ].
    apply (token_run_more (U := ascii_db) 54%N 57%N [32%N]
             (pystr_of "21") [pystr_of "21"]);
      try reflexivity; [discriminate | repeat constructor | ].
    apply (token_run_one (U := ascii_db) 50%N 49%N); reflexivity.
  - simpl. lia.
  - repeat constructor.
  - reflexivity.
Defined.

Lemma first_replacement_is_leftmost_witness :
  exists r rest,
    find_replacements (U := ascii_db) (pystr_of "x 41 42 43") = r :: rest
    /\ (Replacement.start r <= 2)%Z.
Proof.
  apply (first_replacement_is_leftmost (U := ascii_db)
           (pystr_of "x 41 42 43") 2 10).
  apply (match_at_sound (U := ascii_db)). reflexivity.
Defined.

Lemma decode_hex_bytes_ascii_witness :
  _decode_hex_bytes [pystr_of "48"; pystr_of "69"] = pystr_of "Hi".
Proof.
  apply decode_hex_bytes_ascii.
  - constructor;
      [exists 52%N, 56%N, 4%N, 8%N; repeat split | ].
    constructor;
      [exists 54%N, 57%N, 6%N, 9%N; repeat split | constructor].
  - repeat constructor.
Defined.



Lemma count_after_delete_witness :
  let x := sample_entry "2024-01-01T00:00:00" in
  let t := sample_entry "2024-01-02T00:00:00" in
  exists found d',
    delete_history_entry (disk_with [x; t; x; t]) t = (Ok found, d')
    /\ get_history_count d'
       = Ok (4 - (if found then 1 else 0))%Z.
Proof.
  intros x t.
  apply (count_after_delete (disk_with [x; t; x; t]) t [x; t; x; t]).
  - apply load_disk_with.
  - reflexivity.
  - reflexivity.
Defined.




Lemma format_text_is_substitution_witness :
  let text := pystr_of "ab 41 42 43 cd" in
  let reps := [Replacement.mk 3 12 (pystr_of "41 42 43 ")
                 (pystr_of "ABC ")] in
  format_text_with_highlights text reps true
  = pystr_of "ab [bold yellow]41 42 43 [/bold yellow]cd"
  /\ format_text_with_highlights text reps false
     = pystr_of "ab [bold green]ABC [/bold green]cd".
Proof.
  intros text reps.
  assert (H : well_ordered (Z.of_nat (length text)) 0 reps)
    by (repeat constructor; simpl; lia).
  rewrite (format_text_is_substitution text reps true H).
  rewrite (format_text_is_substitution text reps false H).
  split; reflexivity.
Defined.

Lemma banner_lines_aligned_witness :
  Forall (fun line => Z.of_nat (length line) = 11%Z)
    (banner_lines [pystr_of "TALOS"; pystr_of "a very long title line"]
       (pystr_of "decoder") 10)
  /\ length (banner_lines
               [pystr_of "TALOS"; pystr_of "a very long title line"]
               (pystr_of "decoder") 10) = 8.
Proof.
  apply (banner_lines_aligned
           [pystr_of "TALOS"; pystr_of "a very long title line"]
           (pystr_of "decoder") 10).
  lia.
Defined.
